(** * Hybrid retrieval pipeline of hi-rag: a shallow embedding in Rocq

    Modelled source files:
    - [api/services/similarityService.ts]: [calculateCosineSimilarity],
      [calculateJaccardSimilarity], [diversityRerank] (module [Similarity]);
    - [api/services/searchService.ts]: [fuseSearchResults],
      [fallbackKeywordSearch], [searchRelevantChunks] (module [Search]);
    - [api/services/documentProcessingService.ts]: [chunkText],
      [normalizeChunks], [generateChunkEmbeddings], [processTextDocument]
      (module [Chunking], over UTF-16 code units, module [Utf16]);
    - [api/lib/aliyun-nlp.ts]: [extractKeywordsLocally] (module
      [LocalKeywords]);
    - [api/services/keywordService.ts]: [validateKeywordMatch] (module
      [KeywordService]).

    Conventions.  JavaScript strings are modelled as Rocq [string]s whose
    characters are the code units U+0000..U+00FF.  The numbers of the
    reranker are modelled as reals (it takes square roots); the numbers of
    the fusion and lexical stages, which only add, multiply, divide and
    compare, are modelled as exact rationals [Q].  NaN and infinities are
    not modelled. *)

From Stdlib Require Import String Ascii.
From Stdlib Require Import List Bool Arith Lia ZArith.
From Stdlib Require Import Reals Sorting.Permutation Sorting.Sorted.
From Stdlib Require Import QArith Qabs.
From Stdlib Require Lra Lqa.
Import ListNotations.

Ltac rlra := Lra.lra.
Ltac qlra := Lqa.lra.

(** ** Character and string helpers shared by both services *)
Module JsString.

(** [String.prototype.toLowerCase] on one code unit.  Strings are modelled
    as sequences of code units below U+0100; among those, [toLowerCase]
    maps A-Z and U+00C0-U+00DE except U+00D7 to the unit 32 above. *)
Definition lower_char (c : ascii) : ascii :=
  let n := nat_of_ascii c in
  if ((65 <=? n) && (n <=? 90)) || ((192 <=? n) && (n <=? 222) && negb (n =? 215))
  then ascii_of_nat (n + 32) else c.

Fixpoint toLowerCase (s : string) : string :=
  match s with
  | EmptyString => EmptyString
  | String c s' => String (lower_char c) (toLowerCase s')
  end.

(** [String.prototype.includes]: [pat] occurs in [s] at some index. *)
Fixpoint includes (s pat : string) : bool :=
  prefix pat s ||
  match s with
  | EmptyString => false
  | String _ s' => includes s' pat
  end.

(** The regular-expression class [\w]: [A-Za-z0-9_]. *)
Definition is_word_char (c : ascii) : bool :=
  let n := nat_of_ascii c in
  ((48 <=? n) && (n <=? 57)) || ((65 <=? n) && (n <=? 90)) ||
  ((97 <=? n) && (n <=? 122)) || (n =? 95).

(** The regular-expression class [\s] restricted to U+0000..U+00FF:
    tab, line feed, vertical tab, form feed, carriage return, space and
    no-break space. *)
Definition is_space_char (c : ascii) : bool :=
  let n := nat_of_ascii c in
  ((9 <=? n) && (n <=? 13)) || (n =? 32) || (n =? 160).

End JsString.

(** ** [similarityService.ts] *)
Module Similarity.
Import JsString.
Open Scope R_scope.

(** *** [calculateCosineSimilarity] *)

(** One iteration of the loop body: [dotProduct += a*b; normA += a*a;
    normB += b*b]. *)
Definition cos_step (acc : R * R * R) (ab : R * R) : R * R * R :=
  let '(dot, na, nb) := acc in
  let '(a, b) := ab in
  (dot + a * b, na + a * a, nb + b * b).

(** [calculateCosineSimilarity(vecA, vecB)] over the reals: the guards
    and the branch structure are those of the code, the rounding of its
    double arithmetic is not modelled (so a result such as
    1.0000000000000002, or a norm that underflows to 0, is outside this
    model). *)
Definition calculateCosineSimilarity (vecA vecB : list R) : R :=
  if negb (Nat.eqb (length vecA) (length vecB)) then 0
  else
    let '(dotProduct, normA, normB) :=
      fold_left cos_step (combine vecA vecB) (0, 0, 0) in
    if Req_EM_T normA 0 then 0
    else if Req_EM_T normB 0 then 0
    else dotProduct / (sqrt normA * sqrt normB).

(** The textbook quantities the cosine is made of. *)
Fixpoint dot (a b : list R) : R :=
  match a, b with
  | x :: a', y :: b' => x * y + dot a' b'
  | _, _ => 0
  end.

Definition norm2 (a : list R) : R := dot a a.

(** *** [calculateJaccardSimilarity] *)

(** [text.toLowerCase().replace(/[^\w\s]/g, '')]. *)
Definition clean (s : string) : list ascii :=
  filter (fun c => is_word_char c || is_space_char c)
         (list_ascii_of_string (toLowerCase s)).

(** Splitting at each whitespace code unit.  Unlike [split(/\s+/)] a run
    of several separators yields empty pieces between them, and the
    pieces around are the same; the filter [word.length > 1] that follows
    removes every empty piece, so the resulting words coincide. *)
Fixpoint split_ws (s : list ascii) (cur : list ascii) : list (list ascii) :=
  match s with
  | [] => [rev cur]
  | c :: s' => if is_space_char c then rev cur :: split_ws s' []
               else split_ws s' (c :: cur)
  end.

Definition word_eq_dec := list_eq_dec ascii_dec.

(** [new Set(... .filter(word => word.length > 1))]. *)
Definition word_set (s : string) : list (list ascii) :=
  nodup word_eq_dec
    (filter (fun w => 1 <? length w)%nat (split_ws (clean s) [])).

Definition set_has (B : list (list ascii)) (w : list ascii) : bool :=
  if in_dec word_eq_dec w B then true else false.

Definition intersection_size (textA textB : string) : nat :=
  length (filter (set_has (word_set textB)) (word_set textA)).

Definition union_size (textA textB : string) : nat :=
  length (nodup word_eq_dec (word_set textA ++ word_set textB)).

Definition calculateJaccardSimilarity (textA textB : string) : R :=
  if Nat.eqb (union_size textA textB) 0 then 0
  else INR (intersection_size textA textB) / INR (union_size textA textB).

(** *** [diversityRerank] *)

(** The fields of a search result the reranker reads; the other fields
    travel along unchanged.  [None] stands for an absent field. *)
Record chunk := mkChunk {
  chunk_id : string;
  content : string;
  similarity : option R;
  embedding : option (list R)
}.

Definition or_zero (x : option R) : R :=
  match x with Some v => v | None => 0 end.

(** [chunk.similarity || 0]. *)
Definition relevance (c : chunk) : R := or_zero (similarity c).

(** The scan [for (i ...) if (score > bestScore) { bestScore = score;
    bestIndex = i }], started from index [i], best index [bi] and best
    score [bs].  The best index [-1] of the code is [None]. *)
Fixpoint best_index (score : chunk -> R) (l : list chunk) (i : nat)
    (bi : option nat) (bs : R) : option nat :=
  match l with
  | [] => bi
  | c :: l' =>
      if Rlt_dec bs (score c) then best_index score l' (S i) (Some i) (score c)
      else best_index score l' (S i) bi bs
  end.

(** [remaining.splice(i, 1)[0]] together with what remains. *)
Definition take_at (i : nat) (l : list chunk) : option (chunk * list chunk) :=
  match nth_error l i with
  | Some c => Some (c, firstn i l ++ skipn (S i) l)
  | None => None
  end.

(** Vector similarity of two chunks: cosine when both carry an embedding,
    [0] otherwise. *)
Definition vector_similarity (a b : chunk) : R :=
  match embedding a, embedding b with
  | Some ea, Some eb => calculateCosineSimilarity ea eb
  | _, _ => 0
  end.

(** The inner loop over [selectedChunks]: the redundancy penalty. *)
Definition max_similarity (candidate : chunk) (selected : list chunk) : R :=
  fold_left
    (fun m s =>
       Rmax m (Rmax (calculateJaccardSimilarity (content candidate) (content s))
                    (vector_similarity candidate s * (8 / 10))))
    selected 0.

Definition mmr_score (lambda : R) (selected : list chunk) (candidate : chunk) : R :=
  lambda * relevance candidate - (1 - lambda) * max_similarity candidate selected.

(** The [while] loop.  Every iteration either stops or moves one chunk
    from [remaining] to [selected], so [length remaining] iterations
    always suffice. *)
Fixpoint mmr_loop (fuel : nat) (lambda maxResults : R)
    (selected remaining : list chunk) : list chunk :=
  match fuel with
  | O => selected
  | S fuel' =>
      if Rlt_dec (INR (length selected)) maxResults then
        match remaining with
        | [] => selected
        | _ :: _ =>
            match best_index (mmr_score lambda selected) remaining 0 None (-1) with
            | Some i =>
                match take_at i remaining with
                | Some (c, rest) => mmr_loop fuel' lambda maxResults (selected ++ [c]) rest
                | None => selected
                end
            | None => selected
            end
        end
      else selected
  end.

Definition contentThreshold : R := 8 / 10.

Definition is_near_duplicate (c existing : chunk) : bool :=
  if Rlt_dec contentThreshold (calculateJaccardSimilarity (content c) (content existing))
  then true else false.

(** The deduplication pass over [selectedChunks]. *)
Fixpoint dedup_pass (kept : list chunk) (l : list chunk) : list chunk :=
  match l with
  | [] => kept
  | c :: l' =>
      if existsb (is_near_duplicate c) kept then dedup_pass kept l'
      else dedup_pass (kept ++ [c]) l'
  end.

Definition diversityRerank (chunks : list chunk) (queryEmbedding : list R)
    (lambda maxResults : R) : list chunk :=
  match chunks with
  | [] => []
  | _ :: _ =>
      if Rle_dec (INR (length chunks)) maxResults then chunks
      else
        match best_index relevance chunks O (Some O) (-1) with
        | Some i =>
            match take_at i chunks with
            | Some (c, rest) =>
                dedup_pass [] (mmr_loop (length rest) lambda maxResults [c] rest)
            | None => []
            end
        | None => []
        end
  end.

End Similarity.

(** ** [searchService.ts] *)
Module Search.
Import JsString.
Open Scope Q_scope.

(** *** Numbers *)

(** The comparison [a < b] of two numbers. *)
Definition qlt (a b : Q) : bool := negb (Qle_bool b a).

(** [Math.max(a, b)] and [Math.min(a, b)]. *)
Definition qmax (a b : Q) : Q := if Qle_bool a b then b else a.
Definition qmin (a b : Q) : Q := if Qle_bool a b then a else b.

Definition q_of_nat (n : nat) : Q := inject_Z (Z.of_nat n).

(** *** Array helpers *)

(** [Array.prototype.sort] with a comparator: a stable sort (ES2019), as
    insertion into the already sorted prefix.  [x] is placed before the
    first [y] with [cmp x y < 0], hence after every earlier element it
    compares equal to. *)
Fixpoint insert_by {A} (cmp : A -> A -> Q) (x : A) (l : list A) : list A :=
  match l with
  | [] => [x]
  | y :: l' => if qlt (cmp x y) 0 then x :: l else y :: insert_by cmp x l'
  end.

Definition sort_by {A} (cmp : A -> A -> Q) (l : list A) : list A :=
  fold_left (fun acc x => insert_by cmp x acc) l [].

(** [l.slice(0, end)]: a negative [end] counts from the end of the
    array. *)
Definition slice0 {A} (l : list A) (end_ : Z) : list A :=
  let len := Z.of_nat (length l) in
  let e := if (end_ <? 0)%Z then Z.max (len + end_) 0 else Z.min end_ len in
  firstn (Z.to_nat e) l.

(** *** Search results *)

(** A row returned by one of the two stores, with the fields the search
    stages add.  [None] stands for an absent field; the remaining fields
    of a row ([document_id], [chunk_index], [metadata], [documents]) are
    copied unchanged by every stage and are left out. *)
Record chunk := mkChunk {
  id : string;
  content : string;
  created_at : Z;  (** [new Date(created_at).getTime()] *)
  similarity : option Q;
  keyword_score : option Q;
  match_ratio : option Q;
  matched_keywords : option nat
}.

(** [x || 0] on a numeric field. *)
Definition or_zero (x : option Q) : Q :=
  match x with Some v => v | None => 0 end.

(** *** [fuseSearchResults] *)

(** A value of [resultMap] after scoring: the spread row together with
    the fields set by [fuseSearchResults].  [e_keyword_score] is the
    [keyword_score] field of the value, which overrides the row's. *)
Record entry := mkEntry {
  e_chunk : chunk;
  vector_score : Q;
  e_keyword_score : Q;
  hybrid_score : Q;
  keyword_match_ratio : Q;
  normalized_vector_score : Q;
  normalized_keyword_score : Q
}.

(** [Math.max(...xs)] / [Math.min(...xs)] on a non-empty array, with the
    defaults the code uses for an empty one. *)
Definition list_max (xs : list Q) : Q :=
  match xs with [] => 1 | x :: r => fold_left qmax r x end.
Definition list_min (xs : list Q) : Q :=
  match xs with [] => 0 | x :: r => fold_left qmin r x end.

Definition vectorScores (vectorChunks : list chunk) : list Q :=
  filter (fun s => qlt 0 s) (map (fun c => or_zero (similarity c)) vectorChunks).
Definition keywordScores (keywordChunks : list chunk) : list Q :=
  filter (fun s => qlt 0 s) (map (fun c => or_zero (keyword_score c)) keywordChunks).

(** [resultMap] as an association list in insertion order, the iteration
    order of a JavaScript [Map]. *)
Definition result_map := list (string * entry).

Definition map_has (k : string) (m : result_map) : bool :=
  existsb (fun p => String.eqb (fst p) k) m.

Fixpoint map_update (k : string) (f : entry -> entry) (m : result_map) : result_map :=
  match m with
  | [] => []
  | (k', v) :: m' =>
      if String.eqb k' k then (k', f v) :: m' else (k', v) :: map_update k f m'
  end.

Definition add_vector_chunk (m : result_map) (c : chunk) : result_map :=
  if map_has (id c) m then m
  else m ++ [(id c, mkEntry c (or_zero (similarity c)) 0 0 0 0 0)].

Definition set_keyword_score (k : Q) (e : entry) : entry :=
  mkEntry (e_chunk e) (vector_score e) k (hybrid_score e)
          (keyword_match_ratio e) (normalized_vector_score e) (normalized_keyword_score e).

Definition add_keyword_chunk (m : result_map) (c : chunk) : result_map :=
  if map_has (id c) m then map_update (id c) (set_keyword_score (or_zero (keyword_score c))) m
  else m ++ [(id c, mkEntry c 0 (or_zero (keyword_score c)) 0 0 0 0)].

Definition build_result_map (vectorChunks keywordChunks : list chunk) : result_map :=
  fold_left add_keyword_chunk keywordChunks (fold_left add_vector_chunk vectorChunks []).

Definition normalize_vector (maxS minS v : Q) : Q :=
  if qlt 0 v && qlt minS maxS then (v - minS) / (maxS - minS)
  else if qlt 0 v then v
  else 0.

Definition normalize_keyword (maxS minS k : Q) : Q :=
  if qlt 0 k && qlt minS maxS then (k - minS) / (maxS - minS)
  else if qlt 0 k then qmin (k / 5) 1
  else 0.

(** [keywords.filter(k => content.toLowerCase().includes(k.toLowerCase()))
    .length / keywords.length], or [0] without keywords. *)
Definition keywordMatchRatio (keywords : list string) (text : string) : Q :=
  if (0 <? length keywords)%nat then
    q_of_nat (length (filter (fun k => includes (toLowerCase text) (toLowerCase k)) keywords))
    / q_of_nat (length keywords)
  else 0.

Definition weights (ratio : Q) : Q * Q :=
  if qlt (8 # 10) ratio then (1 # 2, 1 # 2) else (6 # 10, 4 # 10).

Definition bonus (v k ratio : Q) : Q :=
  (if qlt 0 v && qlt 0 k then 1 # 10 else 0) +
  (if qlt (1 # 2) ratio then ratio * (1 # 10) else 0).

(** The [.map(chunk => ...)] computing the hybrid score. *)
Definition score_entry (keywords : list string) (maxV minV maxK minK : Q) (e : entry) : entry :=
  let nv := normalize_vector maxV minV (vector_score e) in
  let nk := normalize_keyword maxK minK (e_keyword_score e) in
  let ratio := keywordMatchRatio keywords (content (e_chunk e)) in
  let '(vw, kw) := weights ratio in
  let h := nv * vw + nk * kw in
  let finalScore := qmin (h + bonus (vector_score e) (e_keyword_score e) ratio) 1 in
  mkEntry (e_chunk e) (vector_score e) (e_keyword_score e) finalScore ratio nv nk.

(** The comparator of the final [.sort]. *)
Definition fused_cmp (a b : entry) : Q :=
  if qlt (1 # 100) (Qabs (hybrid_score a - hybrid_score b))
  then hybrid_score b - hybrid_score a
  else keyword_match_ratio b - keyword_match_ratio a.

Definition fuseSearchResults (vectorChunks keywordChunks : list chunk)
    (keywords : list string) (limit : Z) : list entry :=
  let vs := vectorScores vectorChunks in
  let ks := keywordScores keywordChunks in
  let resultMap := build_result_map vectorChunks keywordChunks in
  slice0
    (sort_by fused_cmp
       (map (score_entry keywords (list_max vs) (list_min vs) (list_max ks) (list_min ks))
            (map snd resultMap)))
    limit.

(** *** [fallbackKeywordSearch]: ranking *)

(** [(content.match(new RegExp(escaped, 'g')) || []).length]: the
    escaping makes the expression match [pat] literally; a global match
    counts non-overlapping occurrences from left to right and, after an
    empty match, moves on by one code unit.  [skip] is the number of
    code units of the last match still to be passed. *)
Fixpoint occurrences (pat : string) (skip : nat) (s : string) {struct s} : nat :=
  match skip, s with
  | S k, String _ s' => occurrences pat k s'
  | S _, EmptyString => 0
  | O, EmptyString => if prefix pat EmptyString then 1 else 0
  | O, String _ s' =>
      if prefix pat s then S (occurrences pat (pred (String.length pat)) s')
      else occurrences pat 0 s'
  end.

Definition match_count (pat s : string) : nat := occurrences pat 0 s.

(** One iteration of [searchTerms.forEach(term => ...)]: the running
    [keywordScore] and [matchedKeywords]. *)
Definition score_term (text : string) (acc : nat * nat) (term : string) : nat * nat :=
  let '(keywordScore, matchedKeywords) := acc in
  let termLower := toLowerCase term in
  if includes text termLower
  then (keywordScore + match_count termLower text, S matchedKeywords)%nat
  else (keywordScore, matchedKeywords).

(** The [chunks.map(chunk => ...)] of the lexical stage. *)
Definition rank_chunk (searchTerms : list string) (c : chunk) : chunk :=
  let text := toLowerCase (content c) in
  let '(keywordScore, matchedKeywords) := fold_left (score_term text) searchTerms (0, 0)%nat in
  let matchRatio :=
    if (0 <? length searchTerms)%nat
    then q_of_nat matchedKeywords / q_of_nat (length searchTerms) else 0 in
  mkChunk (id c) (content c) (created_at c) (similarity c)
          (Some (q_of_nat keywordScore)) (Some matchRatio) (Some matchedKeywords).

(** The comparator of the lexical stage's [.sort]. *)
Definition keyword_cmp (a b : chunk) : Q :=
  let ra := or_zero (match_ratio a) in
  let rb := or_zero (match_ratio b) in
  let ka := or_zero (keyword_score a) in
  let kb := or_zero (keyword_score b) in
  if negb (Qeq_bool ra rb) then rb - ra
  else if negb (Qeq_bool ka kb) then kb - ka
  else inject_Z (created_at b - created_at a).

(** *** Effects: calls to the external services *)

Inductive exn := EmbeddingServiceError | StoreError.

(** The external calls, recorded in the order they are issued. *)
Inductive event :=
| ExtractKeywords (text : string)
| GenerateQueryEmbedding (text : string)
| VectorRpc (match_count : Z)
| LexicalSelect (patterns : list string) (row_limit : Z).

(** A computation: the calls it issues and its value or the exception
    that escapes it. *)
Definition M (A : Type) : Type := (list event * (A + exn))%type.

Definition ret {A} (a : A) : M A := ([], inl a).

Definition bind {A B} (m : M A) (f : A -> M B) : M B :=
  match m with
  | (t, inl a) => let '(t', r) := f a in (t ++ t', r)
  | (t, inr e) => (t, inr e)
  end.

Notation "x <- m ;; k" := (bind m (fun x => k)) (at level 61, m at next level, right associativity).

(** [try { m } catch (e) { h(e) }]. *)
Definition catch {A} (m : M A) (h : exn -> M A) : M A :=
  match m with
  | (t, inr e) => let '(t', r) := h e in (t ++ t', r)
  | ok => ok
  end.

(** One entry of [Promise.allSettled]: never rejects. *)
Definition settle {A} (m : M A) : M (A + exn) :=
  let '(t, r) := m in (t, inl r).

(** An external call with its answer. *)
Definition call {A} (ev : event) (r : A + exn) : M A := ([ev], r).

(** The external collaborators.  [extractKeywords] absorbs every failure
    of its providers into an empty or local result, so it never throws;
    [generateQueryEmbedding] rethrows any failure of the embedding
    client; the two stores answer with rows or an error. *)
Record env := mkEnv {
  extractKeywords : string -> list string;
  generateQueryEmbedding : string -> list Q + exn;
  (** [rpc('search_similar_chunks_with_category', {query_embedding,
      target_user_id, match_threshold, match_count, category_filter})] *)
  search_similar_chunks : list Q -> string -> Q -> Z -> option string -> list chunk + exn;
  (** [from('document_chunks').select(...).eq('documents.user_id', ..)
      [.eq('documents.category_id', ..)].or(patterns).limit(n)
      .order('created_at', desc)] *)
  select_chunks : string -> option string -> list string -> Z -> list chunk + exn
}.

(** *** [fallbackKeywordSearch] *)
Definition fallbackKeywordSearch (E : env) (query userId : string) (limit : Z)
    (categoryId : option string) (keywords : option (list string)) : M (list chunk) :=
  searchKeywords <-
    match keywords with
    | Some k => ret k
    | None => call (ExtractKeywords query) (inl (extractKeywords E query))
    end ;;
  let searchTerms := if (0 <? length searchKeywords)%nat then searchKeywords else [query] in
  let searchConditions := map (fun term => ("%" ++ term ++ "%")%string) searchTerms in
  r <- settle (call (LexicalSelect searchConditions (limit * 2))
                    (select_chunks E userId categoryId searchConditions (limit * 2))) ;;
  match r with
  | inr _ => ret []
  | inl chunks =>
      ret (slice0 (sort_by keyword_cmp (map (rank_chunk searchTerms) chunks)) limit)
  end.

(** *** [performVectorSearchWithEmbedding] *)
Definition performVectorSearchWithEmbedding (E : env) (queryEmbedding : list Q)
    (userId : string) (limit : Z) (categoryId : option string) : M (list chunk) :=
  call (VectorRpc limit) (search_similar_chunks E queryEmbedding userId (3 # 10) limit categoryId).

(** *** [searchRelevantChunks] *)

(** The two shapes of result the function returns: store rows (vector
    only or lexical only) or fused entries. *)
Inductive passages :=
| Rows (l : list chunk)
| Fused (l : list entry).

Definition searchRelevantChunks (E : env) (query userId : string) (limit : Z)
    (categoryId : option string) : M passages :=
  keywords <- call (ExtractKeywords query) (inl (extractKeywords E query)) ;;
  queryEmbedding <- call (GenerateQueryEmbedding query) (generateQueryEmbedding E query) ;;
  match queryEmbedding with
  | [] =>
      l <- fallbackKeywordSearch E query userId limit categoryId (Some keywords) ;;
      ret (Rows l)
  | _ :: _ =>
      match keywords with
      | [] =>
          catch (l <- performVectorSearchWithEmbedding E queryEmbedding userId limit categoryId ;;
                 ret (Rows l))
                (fun _ => ret (Rows []))
      | _ :: _ =>
          catch
            (vectorResults <- settle (performVectorSearchWithEmbedding E queryEmbedding userId
                                        (limit * 2) categoryId) ;;
             keywordResults <- settle (fallbackKeywordSearch E query userId (limit * 2)
                                         categoryId (Some keywords)) ;;
             let vectorChunks := match vectorResults with inl v => v | inr _ => [] end in
             let keywordChunks := match keywordResults with inl v => v | inr _ => [] end in
             match vectorChunks, keywordChunks with
             | [], [] => ret (Rows [])
             | _, _ => ret (Fused (fuseSearchResults vectorChunks keywordChunks keywords limit))
             end)
            (fun _ =>
               catch (l <- performVectorSearchWithEmbedding E queryEmbedding userId limit categoryId ;;
                      ret (Rows l))
                     (fun _ => ret (Rows [])))
      end
  end.

End Search.

(** ** The lexical store

    The rows [fallbackKeywordSearch] receives come from the database: the
    filter [content.ilike.<pattern>] of each condition of [.or(...)], then
    [ORDER BY created_at DESC LIMIT n].  [ILIKE] compares case-insensitively;
    in its pattern [%] matches any sequence of characters and [_] any one
    character (the escape character [\\] is not modelled: the patterns
    used below contain none).  The rows of [table] are those of the user and
    category asked for. *)
Module Store.
Import JsString Search.
Open Scope Q_scope.

Fixpoint ilike (pat s : string) {struct pat} : bool :=
  match pat with
  | EmptyString => match s with EmptyString => true | String _ _ => false end
  | String "%" pat' =>
      (fix any (s : string) : bool :=
         ilike pat' s || match s with EmptyString => false | String _ s' => any s' end) s
  | String "_" pat' => match s with EmptyString => false | String _ s' => ilike pat' s' end
  | String c pat' =>
      match s with
      | EmptyString => false
      | String d s' => Ascii.eqb (lower_char c) (lower_char d) && ilike pat' s'
      end
  end.

Definition recency_cmp (a b : chunk) : Q := inject_Z (created_at b - created_at a).

Definition ilike_store (table : list chunk) (userId : string) (categoryId : option string)
    (patterns : list string) (n : Z) : list chunk + exn :=
  inl (firstn (Z.to_nat n)
         (sort_by recency_cmp
            (filter (fun c => existsb (fun p => ilike p (content c)) patterns) table))).

End Store.

(** ** Strings as UTF-16 code units

    [api/services/documentProcessingService.ts] and [api/lib/aliyun-nlp.ts]
    work on document and query text of any script (their patterns name CJK
    code units), so their text is modelled as the list of its UTF-16 code
    units, each a [Z] in [0, 65535]; [length] is [String.prototype.length]. *)
Module Utf16.
Open Scope Z_scope.

(** The code units matched by [\s] and removed by [String.prototype.trim]:
    the ECMAScript WhiteSpace and LineTerminator code points. *)
Definition is_ws (u : Z) : bool :=
  ((9 <=? u) && (u <=? 13)) || (u =? 32) || (u =? 160) || (u =? 5760) ||
  ((8192 <=? u) && (u <=? 8202)) || (u =? 8232) || (u =? 8233) || (u =? 8239) ||
  (u =? 8287) || (u =? 12288) || (u =? 65279).

Fixpoint trim_start (s : list Z) : list Z :=
  match s with
  | [] => []
  | u :: s' => if is_ws u then trim_start s' else s
  end.

(** [s.trim()]. *)
Definition trim (s : list Z) : list Z := rev (trim_start (rev (trim_start s))).

(** [s.slice(start, end)]: negative positions count from the end, and the
    positions are clamped to [0, s.length]. *)
Definition slice (s : list Z) (start end_ : Z) : list Z :=
  let len := Z.of_nat (length s) in
  let from := if start <? 0 then Z.max (len + start) 0 else Z.min start len in
  let to := if end_ <? 0 then Z.max (len + end_) 0 else Z.min end_ len in
  firstn (Z.to_nat (to - from)) (skipn (Z.to_nat from) s).

(** The code units other than white space, in order. *)
Definition visible (s : list Z) : list Z := filter (fun u => negb (is_ws u)) s.

(** [w] occurs in [s] at some position. *)
Definition infix (w s : list Z) : Prop := exists a b, s = a ++ w ++ b.

End Utf16.

(** ** [documentProcessingService]: splitting documents into chunks *)
Module Chunking.
Import Utf16.
Open Scope Z_scope.

(** *** [chunkText] *)

(** The [while (start < text.length)] loop of [chunkText], run for at most
    [fuel] iterations: [None] when it has not returned by then. *)
Fixpoint chunk_loop (fuel : nat) (text : list Z) (chunkSize overlap start : Z)
    : option (list (list Z)) :=
  match fuel with
  | O => None
  | S fuel' =>
      let len := Z.of_nat (length text) in
      if start <? len then
        let end_ := Z.min (start + chunkSize) len in
        let chunk := slice text start end_ in
        if end_ =? len then Some [trim chunk]
        else option_map (cons (trim chunk))
               (chunk_loop fuel' text chunkSize overlap (end_ - overlap))
      else Some []
  end.

Definition chunkText_fuel (fuel : nat) (text : list Z) (chunkSize overlap : Z)
    : option (list (list Z)) :=
  option_map (filter (fun chunk => (0 <? length chunk)%nat))
             (chunk_loop fuel text chunkSize overlap 0).

(** [chunkText(text, chunkSize, overlap)]; [None] stands for a loop that
    never returns.  [length text + 1] iterations are enough for every run
    that returns (see [ChunkingFacts.chunkText_terminates_iff]).  The
    sizes are integers, as at the one call site ([1000], [200]); a
    fractional [chunkSize] is outside this model. *)
Definition chunkText (text : list Z) (chunkSize overlap : Z) : option (list (list Z)) :=
  chunkText_fuel (S (length text)) text chunkSize overlap.

(** *** [normalizeChunks] *)

(** [ChunkData]; a [null] section is [None]. *)
Record chunk_metadata := mkMetadata {
  source : list Z;
  page_number : Z;
  section : option (list Z)
}.

Record ChunkData := mkChunkData {
  text : list Z;
  metadata : chunk_metadata
}.

(** The visible code units of a list of chunks, in order (used to state
    what [normalizeChunks] keeps). *)
Definition visible_texts (l : list ChunkData) : list Z :=
  concat (map (fun c => visible (text c)) l).

Definition MIN_CHUNK_SIZE : nat := 512.
Definition MAX_CHUNK_SIZE : nat := 1024.

(** The decimal digits of [n], as [String(n)] writes them. *)
Fixpoint digits_rev (fuel n : nat) : list Z :=
  match fuel with
  | O => []
  | S f => (48 + Z.of_nat (n mod 10)) :: (if (n <? 10)%nat then [] else digits_rev f (n / 10))
  end.

Definition decimal (n : nat) : list Z := rev (digits_rev (S n) n).

Definition str_part : list Z := [112; 97; 114; 116].   (** ["part"] *)

(** [section ? `${section}_part${k}` : `part${k}`]; an empty section is
    falsy. *)
Definition part_section (sec : option (list Z)) (k : nat) : list Z :=
  match sec with
  | Some ((_ :: _) as s) => s ++ [95] ++ str_part ++ decimal k
  | _ => str_part ++ decimal k
  end.

(** The inner [while (start < currentChunk.text.length)] loop splitting an
    oversized chunk into slices of [MAX_CHUNK_SIZE] code units. *)
Fixpoint split_loop (fuel : nat) (t : list Z) (meta : chunk_metadata)
    (start partIndex : nat) : list ChunkData :=
  match fuel with
  | O => []
  | S f =>
      if (start <? length t)%nat then
        let end_ := Nat.min (start + MAX_CHUNK_SIZE) (length t) in
        let partText := trim (firstn (end_ - start) (skipn start t)) in
        if (0 <? length partText)%nat then
          mkChunkData partText
            (mkMetadata (source meta) (page_number meta)
                        (Some (part_section (section meta) (partIndex + 1))))
            :: split_loop f t meta end_ (S partIndex)
        else split_loop f t meta end_ partIndex
      else []
  end.

(** The inner [while (j < chunks.length && mergedText.length < MIN_CHUNK_SIZE)]
    loop: the merged text and the chunks after the last one merged. *)
Fixpoint merge_loop (mergedText : list Z) (rest : list ChunkData) : list Z * list ChunkData :=
  match rest with
  | [] => (mergedText, [])
  | nextChunk :: rest' =>
      if (length mergedText <? MIN_CHUNK_SIZE)%nat then
        let potentialMerged := mergedText ++ [10; 10] ++ text nextChunk in
        if (length potentialMerged <=? MAX_CHUNK_SIZE)%nat
        then merge_loop potentialMerged rest'
        else (mergedText, rest)
      else (mergedText, rest)
  end.

(** The outer [while (i < chunks.length)] loop; [chunks] is the part from
    index [i] on, so [i < chunks.length - 1] says that [rest] is not
    empty. *)
Fixpoint normalize_loop (fuel : nat) (chunks : list ChunkData) : list ChunkData :=
  match fuel with
  | O => []
  | S f =>
      match chunks with
      | [] => []
      | currentChunk :: rest =>
          if (MAX_CHUNK_SIZE <? length (text currentChunk))%nat then
            split_loop (length (text currentChunk)) (text currentChunk)
                       (metadata currentChunk) 0 0
              ++ normalize_loop f rest
          else if (length (text currentChunk) <? MIN_CHUNK_SIZE)%nat &&
                  negb (match rest with [] => true | _ => false end) then
            let '(mergedText, rest') := merge_loop (text currentChunk) rest in
            mkChunkData (trim mergedText) (metadata currentChunk) :: normalize_loop f rest'
          else currentChunk :: normalize_loop f rest
      end
  end.

(** [normalizeChunks(chunks)]: every iteration consumes at least one chunk,
    so [length chunks] iterations are enough
    (see [ChunkingFacts.normalize_loop_fuel]). *)
Definition normalizeChunks (chunks : list ChunkData) : list ChunkData :=
  normalize_loop (length chunks) chunks.

(** *** [generateChunkEmbeddings] and [processTextDocument] *)

(** A row prepared for [document_chunks]; [metadata] is stored as
    [JSON.stringify(chunk.metadata)]. *)
Record chunk_row := mkRow {
  document_id : list Z;
  row_content : list Z;
  chunk_index : nat;
  embedding : list Q;
  row_metadata : chunk_metadata
}.

(** The loop of [generateChunkEmbeddings] from index [i] on;
    [generateDocumentEmbedding] answers with a vector or rejects, and a
    rejection leaves the function. *)
Fixpoint embed_loop (generateDocumentEmbedding : list Z -> list Q + Search.exn)
    (documentId : list Z) (i : nat) (chunks : list ChunkData) : list chunk_row + Search.exn :=
  match chunks with
  | [] => inl []
  | chunk :: rest =>
      match generateDocumentEmbedding (text chunk) with
      | inr e => inr e
      | inl v =>
          match embed_loop generateDocumentEmbedding documentId (S i) rest with
          | inr e => inr e
          | inl rows => inl (mkRow documentId (text chunk) i v (metadata chunk) :: rows)
          end
      end
  end.

Definition generateChunkEmbeddings (generateDocumentEmbedding : list Z -> list Q + Search.exn)
    (chunks : list ChunkData) (documentId : list Z) : list chunk_row + Search.exn :=
  embed_loop generateDocumentEmbedding documentId 0 chunks.

Definition str_txt : list Z := [46; 116; 120; 116].   (** [".txt"] *)

(** [processTextDocument(content, title, documentId)]; [None] stands for a
    [chunkText] call that never returns. *)
Definition processTextDocument (generateDocumentEmbedding : list Z -> list Q + Search.exn)
    (content title documentId : list Z) : option (list chunk_row + Search.exn) :=
  option_map
    (fun textChunks =>
       let rawChunks := map (fun chunk => mkChunkData chunk (mkMetadata (title ++ str_txt) 1 None))
                            textChunks in
       generateChunkEmbeddings generateDocumentEmbedding (normalizeChunks rawChunks) documentId)
    (chunkText content 1000 200).

End Chunking.

(** ** [aliyun-nlp.ts]: the local keyword extractor *)
Module LocalKeywords.
Import Utf16.
Open Scope Z_scope.

(** The class of the first [replace]: the full-width comma, ideographic
    full stop, full-width exclamation and question marks, semicolon and
    colon, double and single quotes, full-width parentheses, lenticular
    brackets, double angle brackets and the ideographic comma, then
    [. , ! ? ; :], the two quotes, [( ) [ ] < >]. *)
Definition punctuation : list Z :=
  [65292; 12290; 65281; 65311; 65307; 65306; 34; 34; 39; 39; 65288; 65289;
   12304; 12305; 12298; 12299; 12289; 46; 44; 33; 63; 59; 58; 34; 39; 40; 41;
   91; 93; 60; 62].

Definition is_punct (u : Z) : bool := existsb (Z.eqb u) punctuation.

(** [.replace(/[...]/g, ' ')]. *)
Definition replace_punct (s : list Z) : list Z :=
  map (fun u => if is_punct u then 32 else u) s.

(** [.replace(/\s+/g, ' ')]: each maximal run of white space becomes one
    space; [in_run] says that the previous code unit was white space. *)
Fixpoint collapse_ws (in_run : bool) (s : list Z) : list Z :=
  match s with
  | [] => []
  | u :: s' =>
      if is_ws u then (if in_run then collapse_ws true s' else 32 :: collapse_ws true s')
      else u :: collapse_ws false s'
  end.

(** [.split(/\s+/)]: the pieces between maximal runs of white space, with
    an empty first (last) piece when [s] starts (ends) with white space;
    [cur] is the current piece reversed, [in_ws] says that the previous
    code unit was white space. *)
Fixpoint split_ws (cur : list Z) (in_ws : bool) (s : list Z) : list (list Z) :=
  match s with
  | [] => [rev cur]
  | u :: s' =>
      if is_ws u then (if in_ws then split_ws cur true s' else rev cur :: split_ws [] true s')
      else split_ws (u :: cur) false s'
  end.

(** [[\u4e00-\u9fa5]]. *)
Definition is_cjk (u : Z) : bool := (19968 <=? u) && (u <=? 40869).

(** The longest prefix of [s] of at most [n] CJK code units. *)
Fixpoint take_cjk (n : nat) (s : list Z) : list Z :=
  match n, s with
  | S n', u :: s' => if is_cjk u then u :: take_cjk n' s' else []
  | _, _ => []
  end.

(** [s.match(/[\u4e00-\u9fa5]{2,4}/g) || []]: from each position the
    greedy quantifier takes up to 4 CJK code units and needs 2; the scan
    resumes after a match, or one code unit further after a failure.
    [skip] is the number of code units of the last match still to be
    passed. *)
Fixpoint cjk_matches (skip : nat) (s : list Z) {struct s} : list (list Z) :=
  match skip, s with
  | _, [] => []
  | S k, _ :: s' => cjk_matches k s'
  | O, _ :: s' =>
      let m := take_cjk 4 s in
      if (2 <=? length m)%nat then m :: cjk_matches (pred (length m)) s'
      else cjk_matches O s'
  end.

Definition text_eqb (a b : list Z) : bool :=
  if list_eq_dec Z.eq_dec a b then true else false.

(** [[...new Set(words)]]: the first occurrence of each word, in order. *)
Fixpoint dedup (seen : list (list Z)) (words : list (list Z)) : list (list Z) :=
  match words with
  | [] => []
  | w :: words' =>
      if existsb (text_eqb w) seen then dedup seen words'
      else w :: dedup (w :: seen) words'
  end.

(** [stopWords], each word as its code units. *)
Definition stopWords : list (list Z) := [
  [30340];
  [20102];
  [22312];
  [26159];
  [25105];
  [26377];
  [21644];
  [23601];
  [19981];
  [20154];
  [37117];
  [19968];
  [19968; 20010];
  [19978];
  [20063];
  [24456];
  [21040];
  [35828];
  [35201];
  [21435];
  [20320];
  [20250];
  [30528];
  [27809; 26377];
  [30475];
  [22909];
  [33258; 24049];
  [36825];
  [37027];
  [20160; 20040];
  [21487; 20197];
  [36825; 20010];
  [37027; 20010];
  [20182];
  [22905];
  [23427];
  [25105; 20204];
  [20320; 20204];
  [20182; 20204];
  [22905; 20204];
  [23427; 20204];
  [36825; 20123];
  [37027; 20123];
  [24590; 20040];
  [20026; 20160; 20040];
  [21738; 37324];
  [20160; 20040; 26102; 20505];
  [22914; 20309];
  [22810; 23569];
  [21738; 20010];
  [21738; 20123]].

(** [/^\d+$/.test(word)]. *)
Definition all_digits (w : list Z) : bool :=
  (0 <? length w)%nat && forallb (fun u => (48 <=? u) && (u <=? 57)) w.

Definition keep_word (w : list Z) : bool :=
  negb (existsb (text_eqb w) stopWords) && negb (length w <? 2)%nat && negb (all_digits w).

Definition cleanText (text : list Z) : list Z :=
  trim (collapse_ws false (replace_punct text)).

(** [extractKeywordsLocally(text)] ([text] a string; [null] and
    [undefined] are not modelled). *)
Definition extractKeywordsLocally (text : list Z) : list (list Z) :=
  if (length text =? 0)%nat || (length (trim text) =? 0)%nat then []
  else
    let clean := cleanText text in
    let spaceWords := filter (fun word => (0 <? length word)%nat) (split_ws [] false clean) in
    let chineseMatches := cjk_matches O clean in
    firstn 10 (filter keep_word (dedup [] (spaceWords ++ chineseMatches))).

End LocalKeywords.

(** ** [keywordService.ts]: [validateKeywordMatch] *)
Module KeywordService.
Import JsString.

Definition validateKeywordMatch (content : string) (keywords : list string) : bool :=
  if (length keywords =? 0)%nat then true
  else
    let contentLower := toLowerCase content in
    (0 <? length (filter (fun keyword => includes contentLower (toLowerCase keyword)) keywords))%nat.

End KeywordService.

(** ** Concrete inputs used by the examples below *)
Module Samples.
Open Scope R_scope.

(** A passage of the reranker's input. *)
Definition rerank_passage : Similarity.chunk :=
  Similarity.mkChunk "p1" "hello world" (Some (9 / 10)) None.

(** A pool of four passages: a near-copy of [rerank_passage] with a lower
    relevance, and two passages sharing no word with either. *)
Definition rerank_copy : Similarity.chunk :=
  Similarity.mkChunk "p2" "hello world" (Some (8 / 10)) None.
Definition rerank_other : Similarity.chunk :=
  Similarity.mkChunk "p3" "gamma delta" (Some (5 / 10)) None.
Definition rerank_last : Similarity.chunk :=
  Similarity.mkChunk "p4" "epsilon zeta" (Some (1 / 10)) None.
Definition rerank_pool : list Similarity.chunk :=
  [rerank_copy; rerank_passage; rerank_other; rerank_last].

(** Three chunks for [normalizeChunks]: one of 1124 code units (1023 times
    [a], a space, 100 times [b]) that is split, then two short ones that
    are merged. *)
Definition normalize_input : list Chunking.ChunkData :=
  let m := Chunking.mkMetadata [] 1 None in
  [Chunking.mkChunkData (repeat 97%Z 1023 ++ [32%Z] ++ repeat 98%Z 100) m;
   Chunking.mkChunkData [97%Z] m;
   Chunking.mkChunkData [32%Z; 98%Z] m].

(** The pairwise-overlap property of the reranker's output. *)
Definition overlap_at_most_08 (a b : Similarity.chunk) : Prop :=
  Similarity.calculateJaccardSimilarity (Similarity.content a) (Similarity.content b) <= 8 / 10 /\
  Similarity.calculateJaccardSimilarity (Similarity.content b) (Similarity.content a) <= 8 / 10.


(** Rows of the two search channels. *)
Definition vector_row_1 : Search.chunk :=
  Search.mkChunk "p1" "alpha beta text" 3 (Some (9 # 10)%Q) None None None.
Definition vector_row_2 : Search.chunk :=
  Search.mkChunk "p2" "other words" 2 (Some (4 # 10)%Q) None None None.
Definition lexical_row_1 : Search.chunk :=
  Search.mkChunk "p1" "alpha beta text" 3 None (Some 3%Q) None None.
Definition lexical_row_3 : Search.chunk :=
  Search.mkChunk "p3" "beta only" 1 None (Some 1%Q) None None.

Definition sample_keywords : list string := ["alpha"%string; "beta"%string].

(** A placeholder entry for [hd]. *)
Definition no_entry : Search.entry :=
  Search.mkEntry lexical_row_3 0 0 0 0 0 0.

(** Environments of the top-level search. *)
Definition no_vector_rows : list Q -> string -> Q -> Z -> option string
    -> list Search.chunk + Search.exn :=
  fun _ _ _ _ _ => inl [].

Definition notes_table : list Search.chunk :=
  [Search.mkChunk "n1" "alpha notes" 4 None None None None;
   Search.mkChunk "n2" "beta notes" 3 None None None None;
   Search.mkChunk "n3" "gamma notes" 2 None None None None;
   Search.mkChunk "n4" "alpha and beta" 1 None None None None].

Definition three_terms : list string := ["alpha"%string; "beta"%string; "gamma"%string].

(** The embedding service is down; extraction yields three terms. *)
Definition embedding_down : Search.env :=
  Search.mkEnv (fun _ => three_terms) (fun _ => inr Search.EmbeddingServiceError)
               no_vector_rows (Store.ilike_store notes_table).

(** Extraction yields no term; the embedding service answers. *)
Definition no_terms : Search.env :=
  Search.mkEnv (fun _ => []) (fun _ => inl [1%Q]) no_vector_rows
               (Store.ilike_store notes_table).

(** A term with the [ILIKE] wildcard [_] and a passage without it. *)
Definition underscore_term : list string := ["a_c"%string].
Definition abc_row : Search.chunk := Search.mkChunk "r1" "abc" 1 None None None None.
Definition abc_env : Search.env :=
  Search.mkEnv (fun _ => underscore_term) (fun _ => inl [1%Q]) no_vector_rows
               (Store.ilike_store [abc_row]).

End Samples.

(** * Properties of [similarityService.ts] *)
Module SimilarityFacts.
Import Similarity Samples.
Open Scope R_scope.

Lemma fold_cos_step (a b : list R) (d na nb : R) :
  length a = length b ->
  fold_left cos_step (combine a b) (d, na, nb) = (d + dot a b, na + norm2 a, nb + norm2 b).
Proof.
  revert b d na nb.
  induction a as [|x a IH]; intros [|y b] d na nb Hlen; simpl in *; try discriminate.
  - unfold norm2; simpl. f_equal; [f_equal|]; ring.
  - injection Hlen as Hlen. rewrite IH by exact Hlen.
    unfold norm2; simpl. f_equal; [f_equal|]; ring.
Qed.

Lemma norm2_nonneg (a : list R) : 0 <= norm2 a.
Proof.
  unfold norm2; induction a as [|x a IH]; simpl; [rlra|].
  pose proof (Rle_0_sqr x) as Hx. unfold Rsqr in Hx. rlra.
Qed.

(** C10.  [calculateCosineSimilarity] is total and guarded: it returns 0
    when the lengths differ or when either vector has zero norm; otherwise
    the divisor [sqrt normA * sqrt normB] is positive and the result is
    the cosine [dot a b / (|a| |b|)]. *)
Theorem calculateCosineSimilarity_guarded (vecA vecB : list R) :
  (length vecA <> length vecB -> calculateCosineSimilarity vecA vecB = 0) /\
  (length vecA = length vecB -> norm2 vecA = 0 \/ norm2 vecB = 0 ->
     calculateCosineSimilarity vecA vecB = 0) /\
  (length vecA = length vecB -> norm2 vecA <> 0 -> norm2 vecB <> 0 ->
     0 < sqrt (norm2 vecA) * sqrt (norm2 vecB) /\
     calculateCosineSimilarity vecA vecB
       = dot vecA vecB / (sqrt (norm2 vecA) * sqrt (norm2 vecB))).
Proof.
  unfold calculateCosineSimilarity.
  split; [|split].
  - intros Hne. apply Nat.eqb_neq in Hne. now rewrite Hne.
  - intros Heq Hz. rewrite (proj2 (Nat.eqb_eq _ _) Heq). simpl.
    rewrite fold_cos_step by exact Heq.
    rewrite !Rplus_0_l.
    destruct (Req_EM_T (norm2 vecA) 0); [reflexivity|].
    destruct (Req_EM_T (norm2 vecB) 0); [reflexivity|].
    destruct Hz; contradiction.
  - intros Heq Ha Hb. rewrite (proj2 (Nat.eqb_eq _ _) Heq). simpl.
    rewrite fold_cos_step by exact Heq.
    rewrite !Rplus_0_l.
    destruct (Req_EM_T (norm2 vecA) 0); [contradiction|].
    destruct (Req_EM_T (norm2 vecB) 0); [contradiction|].
    split; [|reflexivity].
    pose proof (norm2_nonneg vecA). pose proof (norm2_nonneg vecB).
    apply Rmult_lt_0_compat; apply sqrt_lt_R0; rlra.
Qed.

Lemma calculateCosineSimilarity_guarded_witness :
  0 < sqrt (norm2 [1]) * sqrt (norm2 [1]) /\
  calculateCosineSimilarity [1] [1] = dot [1] [1] / (sqrt (norm2 [1]) * sqrt (norm2 [1])).
Proof.
  apply (proj2 (proj2 (calculateCosineSimilarity_guarded [1] [1]))).
  - reflexivity.
  - unfold norm2; simpl; rlra.
  - unfold norm2; simpl; rlra.
Defined.

(** *** Symmetry of the Jaccard overlap *)

Lemma word_set_NoDup (s : string) : NoDup (word_set s).
Proof. apply NoDup_nodup. Qed.

Lemma set_has_spec (B : list (list ascii)) (w : list ascii) :
  set_has B w = true <-> In w B.
Proof. unfold set_has; destruct (in_dec word_eq_dec w B); split; congruence || tauto. Qed.

Lemma intersection_size_sym (a b : string) :
  intersection_size a b = intersection_size b a.
Proof.
  unfold intersection_size. apply Permutation_length, NoDup_Permutation.
  - apply NoDup_filter, word_set_NoDup.
  - apply NoDup_filter, word_set_NoDup.
  - intros w. rewrite !filter_In, !set_has_spec. tauto.
Qed.

Lemma union_size_sym (a b : string) : union_size a b = union_size b a.
Proof.
  unfold union_size. apply Permutation_length, NoDup_Permutation.
  - apply NoDup_nodup.
  - apply NoDup_nodup.
  - intros w. rewrite !nodup_In, !in_app_iff. tauto.
Qed.

Lemma calculateJaccardSimilarity_sym (a b : string) :
  calculateJaccardSimilarity a b = calculateJaccardSimilarity b a.
Proof.
  unfold calculateJaccardSimilarity.
  now rewrite union_size_sym, intersection_size_sym.
Qed.

(** *** The deduplication pass *)

Lemma ForallOrdPairs_snoc {A} (P : A -> A -> Prop) (l : list A) (x : A) :
  ForallOrdPairs P l -> (forall y, In y l -> P y x) -> ForallOrdPairs P (l ++ [x]).
Proof.
  induction l as [|y l IH]; intros Hl Hx; simpl.
  - constructor; [constructor | constructor].
  - inversion Hl as [|? ? Hy Hrest]; subst. constructor.
    + apply Forall_app; split; [exact Hy|].
      constructor; [apply Hx; left; reflexivity | constructor].
    + apply IH; [exact Hrest|]. intros z Hz; apply Hx; right; exact Hz.
Qed.

Lemma dedup_pass_no_near_duplicates (kept l : list chunk) :
  ForallOrdPairs overlap_at_most_08 kept ->
  ForallOrdPairs overlap_at_most_08 (dedup_pass kept l).
Proof.
  revert kept; induction l as [|c l IH]; intros kept Hk; simpl; [exact Hk|].
  destruct (existsb (is_near_duplicate c) kept) eqn:Hd; apply IH; [exact Hk|].
  apply ForallOrdPairs_snoc; [exact Hk|].
  intros y Hy.
  assert (Hn : is_near_duplicate c y = false).
  { destruct (is_near_duplicate c y) eqn:E; [|reflexivity].
    assert (existsb (is_near_duplicate c) kept = true) by (apply existsb_exists; eauto).
    congruence. }
  unfold is_near_duplicate, contentThreshold in Hn.
  destruct (Rlt_dec _ _) as [_|Hle]; [discriminate|].
  apply Rnot_lt_le in Hle.
  unfold overlap_at_most_08.
  rewrite (calculateJaccardSimilarity_sym (content y) (content c)).
  split; exact Hle.
Qed.

Lemma jaccard_hello_world :
  calculateJaccardSimilarity "hello world" "hello world" = 1.
Proof.
  unfold calculateJaccardSimilarity.
  assert (Hu : union_size "hello world" "hello world" = 2%nat) by reflexivity.
  assert (Hi : intersection_size "hello world" "hello world" = 2%nat) by reflexivity.
  rewrite Hu, Hi.
  simpl. field.
Qed.

Lemma diversityRerank_identity (chunks : list chunk) (queryEmbedding : list R)
    (lambda maxResults : R) :
  INR (length chunks) <= maxResults ->
  diversityRerank chunks queryEmbedding lambda maxResults = chunks.
Proof.
  intros Hle. destruct chunks as [|c0 l]; [reflexivity|].
  unfold diversityRerank. destruct (Rle_dec _ _) as [_|H]; [reflexivity|contradiction].
Qed.

Lemma jaccard_disjoint (a b : string) :
  intersection_size a b = 0%nat -> calculateJaccardSimilarity a b = 0.
Proof.
  intros H. unfold calculateJaccardSimilarity. rewrite H.
  destruct (Nat.eqb _ _); [reflexivity|]. simpl. unfold Rdiv. ring.
Qed.

(** Settles every comparison [Rlt_dec a b] of concrete reals in the goal. *)
Ltac decide_Rlt :=
  repeat match goal with
  | |- context [Rlt_dec ?a ?b] => destruct (Rlt_dec a b); try (exfalso; cbn [INR] in *; rlra)
  end.

(** Evaluates the Jaccard overlaps and the MMR scores of the sample pool. *)
Ltac jaccard_sample :=
  unfold mmr_score, max_similarity, relevance, is_near_duplicate, contentThreshold;
  cbn [fold_left content similarity embedding or_zero vector_similarity
       rerank_passage rerank_other rerank_copy rerank_last];
  repeat first
    [ rewrite jaccard_hello_world
    | rewrite (jaccard_disjoint "hello world" "gamma delta") by reflexivity
    | rewrite (jaccard_disjoint "gamma delta" "hello world") by reflexivity
    | rewrite (jaccard_disjoint "epsilon zeta" "hello world") by reflexivity
    | rewrite (jaccard_disjoint "epsilon zeta" "gamma delta") by reflexivity ].

(** A full run of the reranker on the sample pool with [maxResults = 3]:
    the seed is the most relevant passage (index 1), MMR then prefers the
    unrelated passage to the near-copy, selects the near-copy third, and
    the deduplication pass drops the near-copy. *)
Lemma diversityRerank_pool_result :
  diversityRerank rerank_pool [] (7 / 10) 3 = [rerank_passage; rerank_other].
Proof.
  unfold diversityRerank, rerank_pool.
  destruct (Rle_dec _ _) as [H|_]; [simpl in H; rlra|].
  cbn [best_index relevance or_zero similarity rerank_copy rerank_passage rerank_other rerank_last].
  decide_Rlt.
  assert (E1 : mmr_score (7/10) [rerank_passage] rerank_copy = 26/100)
    by (jaccard_sample; unfold Rmax; repeat destruct (Rle_dec _ _); rlra).
  assert (E2 : mmr_score (7/10) [rerank_passage] rerank_other = 35/100)
    by (jaccard_sample; unfold Rmax; repeat destruct (Rle_dec _ _); rlra).
  assert (E3 : mmr_score (7/10) [rerank_passage] rerank_last = 7/100)
    by (jaccard_sample; unfold Rmax; repeat destruct (Rle_dec _ _); rlra).
  assert (E4 : mmr_score (7/10) [rerank_passage; rerank_other] rerank_copy = 26/100)
    by (jaccard_sample; unfold Rmax; repeat destruct (Rle_dec _ _); rlra).
  assert (E5 : mmr_score (7/10) [rerank_passage; rerank_other] rerank_last = 7/100)
    by (jaccard_sample; unfold Rmax; repeat destruct (Rle_dec _ _); rlra).
  cbn [take_at nth_error firstn skipn app length mmr_loop best_index].
  rewrite ?E1, ?E2, ?E3. decide_Rlt.
  cbn [take_at nth_error firstn skipn app length mmr_loop best_index].
  rewrite ?E4, ?E5. decide_Rlt.
  cbn [take_at nth_error firstn skipn app length mmr_loop best_index].
  decide_Rlt.
  cbn [dedup_pass existsb app].
  jaccard_sample. decide_Rlt. reflexivity.
Qed.

(** C2 (as amended).  When the input has more than [maxResults]
    passages, the reranked list holds no two passages whose Jaccard word
    overlap exceeds 0.8, in either order; an input of at most
    [maxResults] passages is returned unchanged, near-duplicates
    included. *)
Theorem diversityRerank_no_near_duplicates (chunks : list chunk)
    (queryEmbedding : list R) (lambda maxResults : R) :
  (maxResults < INR (length chunks) ->
   ForallOrdPairs overlap_at_most_08 (diversityRerank chunks queryEmbedding lambda maxResults)) /\
  (INR (length chunks) <= maxResults ->
   diversityRerank chunks queryEmbedding lambda maxResults = chunks).
Proof.
  split; [|apply diversityRerank_identity].
  intros Hgt. destruct chunks as [|c0 l]; [constructor|].
  unfold diversityRerank.
  destruct (Rle_dec _ _) as [Hle|_]; [exfalso; rlra|].
  destruct (best_index _ _ _ _ _) as [i|]; [|constructor].
  destruct (take_at _ _) as [[c rest]|]; [|constructor].
  apply dedup_pass_no_near_duplicates. constructor.
Qed.

(** Both halves at work: on the four-passage pool with [maxResults = 3]
    the deduplication pass meets the near-copy and drops it, leaving two
    passages; two copies of a passage with [maxResults = 5] both stay. *)
Lemma diversityRerank_no_near_duplicates_witness :
  3 < INR (length rerank_pool) /\
  ForallOrdPairs overlap_at_most_08 (diversityRerank rerank_pool [] (7 / 10) 3) /\
  diversityRerank rerank_pool [] (7 / 10) 3 = [rerank_passage; rerank_other] /\
  INR (length [rerank_passage; rerank_passage]) <= 5 /\
  diversityRerank [rerank_passage; rerank_passage] [] (7 / 10) 5
    = [rerank_passage; rerank_passage].
Proof.
  assert (H1 : 3 < INR (length rerank_pool)) by (simpl; rlra).
  assert (H2 : INR (length [rerank_passage; rerank_passage]) <= 5) by (simpl; rlra).
  split; [exact H1|]. split.
  - apply (proj1 (diversityRerank_no_near_duplicates rerank_pool [] (7 / 10) 3)). exact H1.
  - split; [exact diversityRerank_pool_result|]. split; [exact H2|].
    apply (proj2 (diversityRerank_no_near_duplicates [rerank_passage; rerank_passage] [] (7 / 10) 5)).
    exact H2.
Defined.

(** C2, as stated, fails: an input of at most [maxResults] passages is
    returned as it is, so two copies of the same passage both stay. *)
Lemma diversityRerank_keeps_near_duplicates :
  ~ ForallOrdPairs overlap_at_most_08
      (diversityRerank [rerank_passage; rerank_passage] [] (7 / 10) 5).
Proof.
  assert (Hid : diversityRerank [rerank_passage; rerank_passage] [] (7 / 10) 5
                = [rerank_passage; rerank_passage]).
  { unfold diversityRerank.
    destruct (Rle_dec _ _) as [_|H]; [reflexivity|].
    exfalso; apply H; simpl; rlra. }
  rewrite Hid. intros H. inversion H as [|? ? Hf _]; subst.
  inversion Hf as [|? ? [Hj _] _]; subst.
  unfold rerank_passage in Hj; simpl in Hj.
  rewrite jaccard_hello_world in Hj. rlra.
Qed.

(** *** Sizes *)

Lemma take_at_length (i : nat) (l rest : list chunk) (c : chunk) :
  take_at i l = Some (c, rest) -> S (length rest) = length l.
Proof.
  unfold take_at. destruct (nth_error l i) eqn:E; [|discriminate].
  intros H; injection H as <- <-.
  assert (Hi : (i < length l)%nat) by (apply nth_error_Some; congruence).
  rewrite length_app, length_firstn. simpl skipn. destruct l as [|x l]; [simpl in Hi; lia|]. rewrite length_skipn. simpl in *. lia.
Qed.

Lemma dedup_pass_length (kept l : list chunk) :
  (length (dedup_pass kept l) <= length kept + length l)%nat.
Proof.
  revert kept; induction l as [|c l IH]; intros kept; simpl; [lia|].
  destruct (existsb _ _).
  - specialize (IH kept); lia.
  - specialize (IH (kept ++ [c])); rewrite length_app in IH; simpl in IH; lia.
Qed.

Lemma mmr_loop_length_input (fuel : nat) (lambda maxResults : R) (sel rem : list chunk) :
  (length (mmr_loop fuel lambda maxResults sel rem) <= length sel + length rem)%nat.
Proof.
  revert sel rem; induction fuel as [|fuel IH]; intros sel rem; simpl; [lia|].
  destruct (Rlt_dec _ _); [|lia].
  destruct rem as [|x0 rem']; [lia|].
  destruct (best_index _ _ _ _ _) as [i|]; [|lia].
  destruct (take_at i (x0 :: rem')) as [[c rest]|] eqn:Ht; [|lia].
  apply take_at_length in Ht.
  specialize (IH (sel ++ [c]) rest). rewrite length_app in IH; simpl in *. lia.
Qed.

Lemma mmr_loop_length_target (fuel : nat) (lambda : R) (m : nat) (sel rem : list chunk) :
  (length sel <= m)%nat ->
  (length (mmr_loop fuel lambda (INR m) sel rem) <= m)%nat.
Proof.
  revert sel rem; induction fuel as [|fuel IH]; intros sel rem Hs; simpl; [lia|].
  destruct (Rlt_dec _ _) as [Hlt|]; [|lia].
  apply INR_lt in Hlt.
  destruct rem as [|x0 rem']; [lia|].
  destruct (best_index _ _ _ _ _) as [i|]; [|lia].
  destruct (take_at i (x0 :: rem')) as [[c rest]|]; [|lia].
  apply IH. rewrite length_app; simpl; lia.
Qed.

(** For a positive whole target [m] the output is no longer than [m] nor
    than the input, and an input of at most [maxResults] passages comes
    back unchanged (so a second reranking of such a list is the
    identity). *)
Lemma diversityRerank_length_bounds (chunks : list chunk) (queryEmbedding : list R)
    (lambda : R) (m : nat) :
  (1 <= m)%nat ->
  (length (diversityRerank chunks queryEmbedding lambda (INR m)) <= m)%nat /\
  (length (diversityRerank chunks queryEmbedding lambda (INR m)) <= length chunks)%nat.
Proof.
  intros Hm. destruct chunks as [|c0 l]; [simpl; lia|].
  unfold diversityRerank.
  destruct (Rle_dec _ _) as [Hle|_].
  - split; [|lia]. apply INR_le in Hle. exact Hle.
  - destruct (best_index _ _ _ _ _) as [i|]; [|simpl; lia].
    destruct (take_at i (c0 :: l)) as [[c rest]|] eqn:Ht; [|simpl; lia].
    apply take_at_length in Ht.
    pose proof (dedup_pass_length [] (mmr_loop (length rest) lambda (INR m) [c] rest)).
    pose proof (mmr_loop_length_input (length rest) lambda (INR m) [c] rest).
    pose proof (mmr_loop_length_target (length rest) lambda m [c] rest).
    simpl in *. split; lia.
Qed.

(** C5 fails at a target of 0 passages: the seed passage is selected
    before the size is ever compared with [maxResults]. *)
Lemma diversityRerank_zero_target :
  diversityRerank [rerank_passage] [] (7 / 10) 0 = [rerank_passage].
Proof.
  unfold diversityRerank.
  destruct (Rle_dec _ _) as [H|_]; [exfalso; simpl in H; rlra|].
  simpl. destruct (Rlt_dec (-1) (relevance rerank_passage)) as [_|H].
  - reflexivity.
  - exfalso; apply H; unfold relevance, rerank_passage; simpl; rlra.
Qed.

End SimilarityFacts.

(** * Properties of [searchService.ts] *)
Module SearchFacts.
Import JsString Search Samples.
Open Scope Q_scope.

(** *** Numbers *)

Lemma qlt_true (a b : Q) : qlt a b = true -> a < b.
Proof.
  unfold qlt. intros H. apply negb_true_iff in H.
  apply Qnot_le_lt. intros Hle. apply Qle_bool_iff in Hle. congruence.
Qed.

Lemma qlt_false (a b : Q) : qlt a b = false -> b <= a.
Proof.
  unfold qlt. intros H. apply negb_false_iff in H. now apply Qle_bool_iff.
Qed.

Lemma qlt_complete (a b : Q) : a < b -> qlt a b = true.
Proof.
  intros H. destruct (qlt a b) eqn:E; [reflexivity|].
  apply qlt_false in E. exfalso; apply (Qlt_not_le _ _ H E).
Qed.

Lemma qlt_compat (a a' b b' : Q) : a == a' -> b == b' -> qlt a b = qlt a' b'.
Proof.
  intros Ha Hb. destruct (qlt a b) eqn:E1, (qlt a' b') eqn:E2; try reflexivity.
  - apply qlt_true in E1. apply qlt_false in E2. exfalso. rewrite Ha, Hb in E1.
    apply (Qlt_not_le _ _ E1 E2).
  - apply qlt_false in E1. apply qlt_true in E2. exfalso. rewrite Ha, Hb in E1.
    apply (Qlt_not_le _ _ E2 E1).
Qed.

Lemma qmin_spec (a b : Q) : (a <= b /\ qmin a b = a) \/ (b < a /\ qmin a b = b).
Proof.
  unfold qmin. destruct (Qle_bool a b) eqn:E.
  - left. split; [now apply Qle_bool_iff | reflexivity].
  - right. split; [|reflexivity]. apply Qnot_le_lt. intros H.
    apply Qle_bool_iff in H; congruence.
Qed.

Lemma qmax_spec (a b : Q) : a <= qmax a b /\ b <= qmax a b.
Proof.
  unfold qmax. destruct (Qle_bool a b) eqn:E.
  - apply Qle_bool_iff in E. split; [exact E | apply Qle_refl].
  - split; [apply Qle_refl|]. apply Qlt_le_weak, Qnot_le_lt. intros H.
    apply Qle_bool_iff in H; congruence.
Qed.

Lemma qmin_le (a b : Q) : qmin a b <= a /\ qmin a b <= b.
Proof. destruct (qmin_spec a b) as [[H ->]|[H ->]]; split; qlra. Qed.

Lemma fold_qmax_upper (r : list Q) (acc : Q) :
  acc <= fold_left qmax r acc /\ (forall y, In y r -> y <= fold_left qmax r acc).
Proof.
  revert acc; induction r as [|y r IH]; intros acc; simpl.
  - split; [apply Qle_refl | tauto].
  - destruct (IH (qmax acc y)) as [H1 H2]. destruct (qmax_spec acc y) as [Ha Hy].
    split; [qlra|]. intros z [<-|Hz]; [qlra | exact (H2 z Hz)].
Qed.

Lemma fold_qmin_lower (r : list Q) (acc : Q) :
  fold_left qmin r acc <= acc /\ (forall y, In y r -> fold_left qmin r acc <= y).
Proof.
  revert acc; induction r as [|y r IH]; intros acc; simpl.
  - split; [apply Qle_refl | tauto].
  - destruct (IH (qmin acc y)) as [H1 H2]. destruct (qmin_le acc y) as [Ha Hy].
    split; [qlra|]. intros z [<-|Hz]; [qlra | exact (H2 z Hz)].
Qed.

Lemma list_max_upper (xs : list Q) (x : Q) : In x xs -> x <= list_max xs.
Proof.
  destruct xs as [|y r]; simpl; [tauto|].
  destruct (fold_qmax_upper r y) as [H1 H2]. intros [<-|Hx]; auto.
Qed.

Lemma list_min_lower (xs : list Q) (x : Q) : In x xs -> list_min xs <= x.
Proof.
  destruct xs as [|y r]; simpl; [tauto|].
  destruct (fold_qmin_lower r y) as [H1 H2]. intros [<-|Hx]; auto.
Qed.

(** *** Arrays *)

Lemma insert_by_perm {A} (cmp : A -> A -> Q) (x : A) (l : list A) :
  Permutation (insert_by cmp x l) (x :: l).
Proof.
  induction l as [|y l IH]; simpl; [reflexivity|].
  destruct (qlt (cmp x y) 0); [reflexivity|].
  rewrite IH. apply perm_swap.
Qed.

Lemma sort_by_perm {A} (cmp : A -> A -> Q) (l : list A) :
  Permutation (sort_by cmp l) l.
Proof.
  unfold sort_by. rewrite <- (app_nil_r l) at 2. generalize (@nil A) as acc.
  induction l as [|x l IH]; intros acc; simpl; [reflexivity|].
  rewrite IH, insert_by_perm. symmetry; apply Permutation_middle.
Qed.

Lemma In_firstn {A} (n : nat) (l : list A) (x : A) : In x (firstn n l) -> In x l.
Proof.
  intros H. rewrite <- (firstn_skipn n l). apply in_or_app; left; exact H.
Qed.

Lemma In_slice0 {A} (l : list A) (e : Z) (x : A) : In x (slice0 l e) -> In x l.
Proof. unfold slice0. apply In_firstn. Qed.

Lemma NoDup_map_firstn {A B} (f : A -> B) (n : nat) (l : list A) :
  NoDup (map f l) -> NoDup (map f (firstn n l)).
Proof.
  intros H. rewrite <- (firstn_skipn n l), map_app in H.
  eapply NoDup_app_remove_r; exact H.
Qed.

Lemma NoDup_map_slice0 {A B} (f : A -> B) (l : list A) (e : Z) :
  NoDup (map f l) -> NoDup (map f (slice0 l e)).
Proof. unfold slice0. apply NoDup_map_firstn. Qed.

Lemma length_slice0 {A} (l : list A) (e : Z) :
  (0 <= e)%Z -> (Z.of_nat (length (slice0 l e)) <= e)%Z.
Proof.
  intros He. unfold slice0. rewrite length_firstn.
  destruct (e <? 0)%Z eqn:E; [apply Z.ltb_lt in E; lia|]. lia.
Qed.

(** *** The result map of [fuseSearchResults] *)

(** What every value of the map satisfies: it is filed under its row's
    id, its vector score is 0 or the score of a row of the vector
    channel, its keyword score is 0 or the score of a row of the lexical
    channel, and it is 0 unless its id occurs in the lexical channel. *)
Definition entry_ok (vc kc : list chunk) (k : string) (v : entry) : Prop :=
  k = id (e_chunk v) /\
  (vector_score v = 0 \/ In (vector_score v) (map (fun c => or_zero (similarity c)) vc)) /\
  (e_keyword_score v = 0 \/ In (e_keyword_score v) (map (fun c => or_zero (keyword_score c)) kc)) /\
  (~ In k (map id kc) -> e_keyword_score v = 0).

Definition map_ok (vc kc : list chunk) (m : result_map) : Prop :=
  NoDup (map fst m) /\ Forall (fun p => entry_ok vc kc (fst p) (snd p)) m.

Lemma map_has_false (k : string) (m : result_map) :
  map_has k m = false -> ~ In k (map fst m).
Proof.
  unfold map_has. intros H Hin. apply in_map_iff in Hin as [[k' v] [Hk Hin]].
  simpl in Hk; subst k'.
  assert (existsb (fun p => String.eqb (fst p) k) m = true).
  { apply existsb_exists. exists (k, v). split; [exact Hin | apply String.eqb_refl]. }
  congruence.
Qed.

Lemma map_update_fst (k : string) (f : entry -> entry) (m : result_map) :
  map fst (map_update k f m) = map fst m.
Proof.
  induction m as [|[k' v] m IH]; simpl; [reflexivity|].
  destruct (String.eqb k' k); simpl; [reflexivity | now rewrite IH].
Qed.

Lemma map_update_Forall (P : string * entry -> Prop) (k : string) (f : entry -> entry)
    (m : result_map) :
  Forall P m -> (forall v, P (k, v) -> P (k, f v)) -> Forall P (map_update k f m).
Proof.
  intros Hm Hf. induction Hm as [|[k' v] m Hp Hm IH]; simpl; [constructor|].
  destruct (String.eqb k' k) eqn:E.
  - apply String.eqb_eq in E; subst k'. constructor; [apply Hf; exact Hp | exact Hm].
  - constructor; [exact Hp | exact IH].
Qed.

Lemma snoc_map_ok (vc kc : list chunk) (m : result_map) (k : string) (v : entry) :
  map_ok vc kc m -> map_has k m = false -> entry_ok vc kc k v ->
  map_ok vc kc (m ++ [(k, v)]).
Proof.
  intros [Hnd Hall] Hnew Hv. apply map_has_false in Hnew. split.
  - rewrite map_app. simpl. apply NoDup_app; [exact Hnd | constructor; [tauto | constructor] |].
    intros x Hx [<-|[]]. contradiction.
  - apply Forall_app; split; [exact Hall|]. constructor; [exact Hv | constructor].
Qed.

Lemma add_vector_chunk_ok (vc kc : list chunk) (m : result_map) (c : chunk) :
  In c vc -> map_ok vc kc m -> map_ok vc kc (add_vector_chunk m c).
Proof.
  intros Hc Hm. unfold add_vector_chunk.
  destruct (map_has (id c) m) eqn:E; [exact Hm|].
  apply snoc_map_ok; [exact Hm | exact E|].
  unfold entry_ok; simpl. split; [reflexivity|]. split.
  - right. apply in_map_iff. exists c; split; [reflexivity | exact Hc].
  - split; [left; reflexivity | intros _; reflexivity].
Qed.

Lemma add_keyword_chunk_ok (vc kc : list chunk) (m : result_map) (c : chunk) :
  In c kc -> map_ok vc kc m -> map_ok vc kc (add_keyword_chunk m c).
Proof.
  intros Hc Hm. unfold add_keyword_chunk.
  assert (Hin : In (or_zero (keyword_score c)) (map (fun c => or_zero (keyword_score c)) kc))
    by (apply in_map_iff; exists c; split; [reflexivity | exact Hc]).
  assert (Hid : In (id c) (map id kc)) by (apply in_map; exact Hc).
  destruct (map_has (id c) m) eqn:E.
  - destruct Hm as [Hnd Hall]. split; [rewrite map_update_fst; exact Hnd|].
    apply map_update_Forall; [exact Hall|].
    intros v (Hk & Hvs & _ & _). simpl in *. unfold entry_ok; simpl.
    split; [exact Hk|]. split; [exact Hvs|]. split; [right; exact Hin|].
    intros Hn; contradiction.
  - apply snoc_map_ok; [exact Hm | exact E|].
    unfold entry_ok; simpl. split; [reflexivity|]. split; [left; reflexivity|].
    split; [right; exact Hin | intros Hn; contradiction].
Qed.

Lemma build_result_map_ok (vc kc : list chunk) : map_ok vc kc (build_result_map vc kc).
Proof.
  unfold build_result_map.
  assert (Hv : forall l m, incl l vc -> map_ok vc kc m ->
               map_ok vc kc (fold_left add_vector_chunk l m)).
  { induction l as [|c l IH]; intros m Hl Hm; simpl; [exact Hm|].
    apply IH; [intros x Hx; apply Hl; right; exact Hx|].
    apply add_vector_chunk_ok; [apply Hl; left; reflexivity | exact Hm]. }
  assert (Hk : forall l m, incl l kc -> map_ok vc kc m ->
               map_ok vc kc (fold_left add_keyword_chunk l m)).
  { induction l as [|c l IH]; intros m Hl Hm; simpl; [exact Hm|].
    apply IH; [intros x Hx; apply Hl; right; exact Hx|].
    apply add_keyword_chunk_ok; [apply Hl; left; reflexivity | exact Hm]. }
  apply Hk; [apply incl_refl|]. apply Hv; [apply incl_refl|].
  split; constructor.
Qed.

(** Every passage of the fused list is a scored value of the map. *)
Lemma fuse_entry (vc kc : list chunk) (keywords : list string) (limit : Z) (e : entry) :
  In e (fuseSearchResults vc kc keywords limit) ->
  exists k e0, In (k, e0) (build_result_map vc kc) /\ entry_ok vc kc k e0 /\
    e = score_entry keywords (list_max (vectorScores vc)) (list_min (vectorScores vc))
                    (list_max (keywordScores kc)) (list_min (keywordScores kc)) e0.
Proof.
  unfold fuseSearchResults. intros H.
  apply In_slice0 in H. apply (Permutation_in _ (sort_by_perm _ _)) in H.
  apply in_map_iff in H as [e0 [<- H]]. apply in_map_iff in H as [[k e1] [Hs Hin]].
  simpl in Hs; subst e1.
  destruct (build_result_map_ok vc kc) as [_ Hall].
  rewrite Forall_forall in Hall. exists k, e0. split; [exact Hin|]. split; [|reflexivity].
  exact (Hall _ Hin).
Qed.

(** A positive vector (keyword) score of the map lies between the
    minimum and the maximum the code computes. *)
Lemma vector_score_range (vc kc : list chunk) (k : string) (e0 : entry) :
  entry_ok vc kc k e0 -> qlt 0 (vector_score e0) = true ->
  list_min (vectorScores vc) <= vector_score e0 <= list_max (vectorScores vc).
Proof.
  intros (_ & Hv & _ & _) Hpos. destruct Hv as [Hz|Hin].
  - rewrite Hz in Hpos. discriminate.
  - assert (H : In (vector_score e0) (vectorScores vc)) by (apply filter_In; split; assumption).
    split; [apply list_min_lower | apply list_max_upper]; exact H.
Qed.

Lemma keyword_score_range (vc kc : list chunk) (k : string) (e0 : entry) :
  entry_ok vc kc k e0 -> qlt 0 (e_keyword_score e0) = true ->
  list_min (keywordScores kc) <= e_keyword_score e0 <= list_max (keywordScores kc).
Proof.
  intros (_ & _ & Hk & _) Hpos. destruct Hk as [Hz|Hin].
  - rewrite Hz in Hpos. discriminate.
  - assert (H : In (e_keyword_score e0) (keywordScores kc)) by (apply filter_In; split; assumption).
    split; [apply list_min_lower | apply list_max_upper]; exact H.
Qed.

(** *** Scoring one entry *)

Lemma q_of_nat_le (a b : nat) : (a <= b)%nat -> q_of_nat a <= q_of_nat b.
Proof. intros H. unfold q_of_nat. rewrite <- Zle_Qle. lia. Qed.

Lemma q_of_nat_pos (a : nat) : (0 < a)%nat -> 0 < q_of_nat a.
Proof. intros H. unfold q_of_nat. change 0 with (inject_Z 0). rewrite <- Zlt_Qlt. lia. Qed.

Lemma keywordMatchRatio_bounds (keywords : list string) (text : string) :
  0 <= keywordMatchRatio keywords text <= 1.
Proof.
  unfold keywordMatchRatio. destruct (0 <? length keywords)%nat eqn:E; [|split; qlra].
  apply Nat.ltb_lt in E.
  pose proof (filter_length_le (fun k => includes (toLowerCase text) (toLowerCase k)) keywords) as Hf.
  pose proof (q_of_nat_pos _ E) as Hpos.
  pose proof (q_of_nat_le _ _ Hf) as Hle.
  pose proof (q_of_nat_le 0 _ (Nat.le_0_l (length (filter (fun k => includes (toLowerCase text) (toLowerCase k)) keywords)))) as H0.
  split.
  - apply Qle_shift_div_l; [exact Hpos|]. change (q_of_nat 0) with 0 in H0. qlra.
  - apply Qle_shift_div_r; [exact Hpos|]. qlra.
Qed.

Lemma weights_cases (r : Q) : weights r = (1 # 2, 1 # 2) \/ weights r = (6 # 10, 4 # 10).
Proof. unfold weights. destruct (qlt _ _); [left | right]; reflexivity. Qed.

Lemma normalize_vector_nonneg (mx mn v : Q) :
  (qlt 0 v = true -> mn <= v <= mx) -> 0 <= normalize_vector mx mn v.
Proof.
  intros Hr. unfold normalize_vector.
  destruct (qlt 0 v) eqn:H1, (qlt mn mx) eqn:H2; simpl; try qlra.
  - apply qlt_true in H2. destruct (Hr eq_refl).
    apply Qle_shift_div_l; qlra.
  - apply qlt_true in H1. qlra.
Qed.

Lemma normalize_keyword_nonneg (mx mn k : Q) :
  (qlt 0 k = true -> mn <= k <= mx) -> 0 <= normalize_keyword mx mn k.
Proof.
  intros Hr. unfold normalize_keyword.
  destruct (qlt 0 k) eqn:H1, (qlt mn mx) eqn:H2; simpl; try qlra.
  - apply qlt_true in H2. destruct (Hr eq_refl).
    apply Qle_shift_div_l; qlra.
  - apply qlt_true in H1. change (k / 5) with (k * (1 # 5)).
    destruct (qmin_spec (k * (1 # 5)) 1) as [[_ ->]|[_ ->]]; qlra.
Qed.

Lemma bonus_nonneg (v k r : Q) : 0 <= r -> 0 <= bonus v k r.
Proof.
  intros Hr. unfold bonus.
  destruct (qlt 0 v && qlt 0 k); destruct (qlt (1 # 2) r); qlra.
Qed.

Lemma score_entry_eq (keywords : list string) (maxV minV maxK minK : Q) (e0 : entry) :
  let nv := normalize_vector maxV minV (vector_score e0) in
  let nk := normalize_keyword maxK minK (e_keyword_score e0) in
  let r := keywordMatchRatio keywords (content (e_chunk e0)) in
  score_entry keywords maxV minV maxK minK e0 =
  mkEntry (e_chunk e0) (vector_score e0) (e_keyword_score e0)
    (qmin (nv * fst (weights r) + nk * snd (weights r)
           + bonus (vector_score e0) (e_keyword_score e0) r) 1)
    r nv nk.
Proof. unfold score_entry. destruct (weights _); reflexivity. Qed.

Lemma score_entry_bounds (keywords : list string) (maxV minV maxK minK : Q) (e0 : entry) :
  (qlt 0 (vector_score e0) = true -> minV <= vector_score e0 <= maxV) ->
  (qlt 0 (e_keyword_score e0) = true -> minK <= e_keyword_score e0 <= maxK) ->
  let e := score_entry keywords maxV minV maxK minK e0 in
  0 <= normalized_keyword_score e /\
  0 <= hybrid_score e <= 1 /\ 0 <= keyword_match_ratio e <= 1.
Proof.
  intros Hv Hk. cbv zeta. rewrite score_entry_eq; simpl.
  pose proof (normalize_vector_nonneg _ _ _ Hv) as Hnv.
  pose proof (normalize_keyword_nonneg _ _ _ Hk) as Hnk.
  pose proof (keywordMatchRatio_bounds keywords (content (e_chunk e0))) as Hr.
  pose proof (bonus_nonneg (vector_score e0) (e_keyword_score e0) _ (proj1 Hr)) as Hb.
  split; [exact Hnk|]. split; [|exact Hr].
  destruct (weights_cases (keywordMatchRatio keywords (content (e_chunk e0)))) as [Hw|Hw];
    rewrite Hw; simpl;
    match goal with |- context [qmin ?x 1] => destruct (qmin_spec x 1) as [[? ->]|[? ->]] end;
    split; qlra.
Qed.

(** C4.  Every passage of the fused list has [hybrid_score] and
    [keyword_match_ratio] in [0, 1]. *)
Theorem fuseSearchResults_score_bounds (vc kc : list chunk) (keywords : list string)
    (limit : Z) (e : entry) :
  In e (fuseSearchResults vc kc keywords limit) ->
  0 <= hybrid_score e <= 1 /\ 0 <= keyword_match_ratio e <= 1.
Proof.
  intros H. destruct (fuse_entry _ _ _ _ _ H) as (k & e0 & _ & Hok & ->).
  destruct (score_entry_bounds keywords _ _ _ _ e0
              (vector_score_range _ _ _ _ Hok) (keyword_score_range _ _ _ _ Hok))
    as (_ & Hh & Hr).
  split; assumption.
Qed.

Lemma fuseSearchResults_score_bounds_witness :
  In (hd no_entry (fuseSearchResults [vector_row_1; vector_row_2] [lexical_row_1; lexical_row_3]
                     sample_keywords 5))
     (fuseSearchResults [vector_row_1; vector_row_2] [lexical_row_1; lexical_row_3]
        sample_keywords 5) /\
  0 <= hybrid_score (hd no_entry (fuseSearchResults [vector_row_1; vector_row_2]
                                   [lexical_row_1; lexical_row_3] sample_keywords 5)) <= 1 /\
  0 <= keyword_match_ratio (hd no_entry (fuseSearchResults [vector_row_1; vector_row_2]
                                   [lexical_row_1; lexical_row_3] sample_keywords 5)) <= 1.
Proof.
  assert (Hin : In (hd no_entry (fuseSearchResults [vector_row_1; vector_row_2]
                                   [lexical_row_1; lexical_row_3] sample_keywords 5))
                   (fuseSearchResults [vector_row_1; vector_row_2] [lexical_row_1; lexical_row_3]
                      sample_keywords 5))
    by (vm_compute; left; reflexivity).
  split; [exact Hin|].
  exact (fuseSearchResults_score_bounds _ _ _ _ _ Hin).
Defined.

Lemma normalize_vector_compat (mx mn v v' : Q) :
  v == v' -> normalize_vector mx mn v == normalize_vector mx mn v'.
Proof.
  intros Hv. unfold normalize_vector.
  rewrite (qlt_compat 0 0 v v') by (reflexivity || exact Hv).
  destruct (qlt 0 v'), (qlt mn mx); simpl; try reflexivity; try exact Hv.
  rewrite Hv. reflexivity.
Qed.

Lemma qmin_mono (a b c : Q) : a <= b -> qmin a c <= qmin b c.
Proof.
  intros H. destruct (qmin_spec a c) as [[Ha ->]|[Ha ->]];
    destruct (qmin_spec b c) as [[Hb ->]|[Hb ->]]; qlra.
Qed.

(** C6.  In a fused list, a passage that occurs in the lexical channel
    scores at least as high as a passage that does not, when both have
    the same vector score and the same text. *)
Theorem fuseSearchResults_bonus_monotone (vc kc : list chunk) (keywords : list string)
    (limit : Z) (p q : entry) :
  In p (fuseSearchResults vc kc keywords limit) ->
  In q (fuseSearchResults vc kc keywords limit) ->
  In (id (e_chunk p)) (map id kc) ->
  ~ In (id (e_chunk q)) (map id kc) ->
  vector_score p == vector_score q ->
  content (e_chunk p) = content (e_chunk q) ->
  hybrid_score q <= hybrid_score p.
Proof.
  intros Hp Hq _ Hnq Hv Hc.
  destruct (fuse_entry _ _ _ _ _ Hp) as (kp & p0 & _ & Hokp & ->).
  destruct (fuse_entry _ _ _ _ _ Hq) as (kq & q0 & _ & Hokq & ->).
  rewrite !score_entry_eq in *. simpl in *.
  assert (Hq0 : e_keyword_score q0 = 0).
  { destruct Hokq as (Hk & _ & _ & Habs). apply Habs. rewrite Hk. exact Hnq. }
  pose proof (normalize_keyword_nonneg _ _ _ (keyword_score_range _ _ _ _ Hokp)) as Hnk.
  pose proof (normalize_vector_compat (list_max (vectorScores vc)) (list_min (vectorScores vc))
                _ _ Hv) as Hnv.
  rewrite Hc. rewrite Hq0.
  set (r := keywordMatchRatio keywords (content (e_chunk q0))).
  assert (Hb : bonus (vector_score q0) 0 r <= bonus (vector_score p0) (e_keyword_score p0) r).
  { unfold bonus. rewrite andb_false_r.
    destruct (qlt 0 (vector_score p0) && qlt 0 (e_keyword_score p0)); qlra. }
  assert (Hz : normalize_keyword (list_max (keywordScores kc)) (list_min (keywordScores kc)) 0 = 0)
    by reflexivity.
  rewrite Hz. apply qmin_mono.
  destruct (weights_cases r) as [Hw|Hw]; rewrite Hw; simpl; qlra.
Qed.

Lemma fuseSearchResults_bonus_monotone_witness :
  let out := fuseSearchResults
               [Search.mkChunk "a" "same text" 0 (Some (5 # 10)) None None None;
                Search.mkChunk "b" "same text" 0 (Some (5 # 10)) None None None]
               [Search.mkChunk "a" "same text" 0 None (Some 2) None None] [] 5 in
  hybrid_score (nth 1 out no_entry) <= hybrid_score (nth 0 out no_entry).
Proof.
  intros out.
  apply (fuseSearchResults_bonus_monotone
           [Search.mkChunk "a" "same text" 0 (Some (5 # 10)) None None None;
            Search.mkChunk "b" "same text" 0 (Some (5 # 10)) None None None]
           [Search.mkChunk "a" "same text" 0 None (Some 2) None None] [] 5).
  - vm_compute; left; reflexivity.
  - vm_compute; right; left; reflexivity.
  - vm_compute; left; reflexivity.
  - vm_compute. intros [H|[]]. discriminate.
  - vm_compute. reflexivity.
  - vm_compute. reflexivity.
Defined.

(** C3 (as amended).  For every passage of the fused list: a positive
    vector score lies between the minimum and the maximum of the positive
    similarity scores of the vector channel; it is min-max normalized to
    a value in [0, 1] when these differ, and kept as it is (not set to
    1.0) when their range collapses, e.g. when there is only one; a
    non-positive vector score normalizes to 0.  The keyword score is
    normalized the same way, except that a collapsed range divides it by
    5 and clamps it to 1. *)
Theorem fuseSearchResults_normalization (vc kc : list chunk) (keywords : list string)
    (limit : Z) (e : entry) :
  In e (fuseSearchResults vc kc keywords limit) ->
  let v := vector_score e in
  let k := e_keyword_score e in
  let maxV := list_max (vectorScores vc) in
  let minV := list_min (vectorScores vc) in
  let maxK := list_max (keywordScores kc) in
  let minK := list_min (keywordScores kc) in
  (0 < v -> minV <= v <= maxV /\
     (minV < maxV -> normalized_vector_score e == (v - minV) / (maxV - minV) /\
                     0 <= normalized_vector_score e <= 1) /\
     (maxV <= minV -> normalized_vector_score e = v)) /\
  (v <= 0 -> normalized_vector_score e = 0) /\
  (0 < k -> minK <= k <= maxK /\
     (minK < maxK -> normalized_keyword_score e == (k - minK) / (maxK - minK) /\
                     0 <= normalized_keyword_score e <= 1) /\
     (maxK <= minK -> normalized_keyword_score e = qmin (k / 5) 1)) /\
  (k <= 0 -> normalized_keyword_score e = 0).
Proof.
  intros H. destruct (fuse_entry _ _ _ _ _ H) as (kk & e0 & _ & Hok & ->).
  rewrite score_entry_eq. cbv zeta. simpl.
  unfold normalize_vector, normalize_keyword.
  split; [|split; [|split]].
  - intros Hpos. apply qlt_complete in Hpos as Hpos'.
    destruct (vector_score_range _ _ _ _ Hok Hpos') as [Hlo Hhi].
    split; [split; assumption|]. rewrite Hpos'. simpl. split.
    + intros Hlt. rewrite (qlt_complete _ _ Hlt). split; [reflexivity|].
      split; [apply Qle_shift_div_l | apply Qle_shift_div_r]; qlra.
    + intros Hge. destruct (qlt (list_min (vectorScores vc)) (list_max (vectorScores vc))) eqn:E;
        [apply qlt_true in E; qlra | reflexivity].
  - intros Hle. destruct (qlt 0 (vector_score e0)) eqn:E; [apply qlt_true in E; qlra|].
    reflexivity.
  - intros Hpos. apply qlt_complete in Hpos as Hpos'.
    destruct (keyword_score_range _ _ _ _ Hok Hpos') as [Hlo Hhi].
    split; [split; assumption|]. rewrite Hpos'. simpl. split.
    + intros Hlt. rewrite (qlt_complete _ _ Hlt). split; [reflexivity|].
      split; [apply Qle_shift_div_l | apply Qle_shift_div_r]; qlra.
    + intros Hge. destruct (qlt (list_min (keywordScores kc)) (list_max (keywordScores kc))) eqn:E;
        [apply qlt_true in E; qlra | reflexivity].
  - intros Hle. destruct (qlt 0 (e_keyword_score e0)) eqn:E; [apply qlt_true in E; qlra|].
    reflexivity.
Qed.

Lemma fuseSearchResults_normalization_witness :
  In (hd no_entry (fuseSearchResults [vector_row_1] [] [] 5)) (fuseSearchResults [vector_row_1] [] [] 5) /\
  normalized_vector_score (hd no_entry (fuseSearchResults [vector_row_1] [] [] 5))
    = vector_score (hd no_entry (fuseSearchResults [vector_row_1] [] [] 5)).
Proof.
  assert (Hin : In (hd no_entry (fuseSearchResults [vector_row_1] [] [] 5))
                   (fuseSearchResults [vector_row_1] [] [] 5))
    by (vm_compute; left; reflexivity).
  split; [exact Hin|].
  destruct (fuseSearchResults_normalization _ _ _ _ _ Hin) as [Hv _].
  apply (proj2 (proj2 (Hv ltac:(vm_compute; reflexivity)))).
  apply Qle_bool_iff. vm_compute. reflexivity.
Defined.

(** C3, as stated, fails: with a single vector passage of similarity 0.9
    its normalized vector score is 0.9, not 1.0. *)
Lemma fuseSearchResults_single_vector_score_not_one :
  map normalized_vector_score (fuseSearchResults [vector_row_1] [] [] 5) = [9 # 10] /\
  ~ (9 # 10 == 1).
Proof.
  split; [vm_compute; reflexivity|]. unfold Qeq; simpl; lia.
Qed.

(** C9 (as amended).  Every passage id occurs at most once in the fused
    list, and for a non-negative limit the list has at most [limit]
    passages. *)
Theorem fuseSearchResults_unique_limited (vc kc : list chunk) (keywords : list string)
    (limit : Z) :
  NoDup (map (fun e => id (e_chunk e)) (fuseSearchResults vc kc keywords limit)) /\
  ((0 <= limit)%Z -> (Z.of_nat (length (fuseSearchResults vc kc keywords limit)) <= limit)%Z).
Proof.
  split; [|apply length_slice0].
  unfold fuseSearchResults. apply NoDup_map_slice0.
  eapply Permutation_NoDup; [symmetry; apply Permutation_map, sort_by_perm|].
  destruct (build_result_map_ok vc kc) as [Hnd Hall].
  rewrite !map_map.
  erewrite map_ext_in; [exact Hnd|].
  intros [k v] Hin. rewrite Forall_forall in Hall.
  destruct (Hall _ Hin) as [Hk _]. simpl in *.
  rewrite score_entry_eq. simpl. symmetry. exact Hk.
Qed.

Lemma fuseSearchResults_unique_limited_witness :
  (0 <= 1)%Z /\
  (Z.of_nat (length (fuseSearchResults [vector_row_1; vector_row_2] [] [] 1)) <= 1)%Z.
Proof.
  split; [lia|]. apply (proj2 (fuseSearchResults_unique_limited _ _ _ _)). lia.
Defined.

(** C9, as stated, fails for a negative limit: [slice(0, -1)] drops only
    the last passage, so two passages leave one, more than [-1]. *)
Lemma fuseSearchResults_negative_limit :
  length (fuseSearchResults [vector_row_1; vector_row_2] [] [] (-1)) = 1%nat /\
  ~ (Z.of_nat (length (fuseSearchResults [vector_row_1; vector_row_2] [] [] (-1))) <= -1)%Z.
Proof.
  assert (H : length (fuseSearchResults [vector_row_1; vector_row_2] [] [] (-1)) = 1%nat)
    by (vm_compute; reflexivity).
  split; [exact H|]. rewrite H. lia.
Qed.

(** *** Failure of the embedding step *)

(** C1 (code bug): when [generateQueryEmbedding] rejects, the call at the
    start of [searchRelevantChunks] is outside every [try], so the
    top-level search rejects with the same error after the extraction and
    embedding calls; no lexical search is issued. *)
Theorem searchRelevantChunks_embedding_failure_propagates (E : env)
    (query userId : string) (limit : Z) (categoryId : option string) (e : exn)
    (Hemb : generateQueryEmbedding E query = inr e) :
  searchRelevantChunks E query userId limit categoryId
    = ([ExtractKeywords query; GenerateQueryEmbedding query], inr e).
Proof.
  unfold searchRelevantChunks, bind, call.
  rewrite Hemb.
  reflexivity.
Qed.

Lemma searchRelevantChunks_embedding_failure_propagates_witness :
  generateQueryEmbedding embedding_down "q" = inr EmbeddingServiceError /\
  searchRelevantChunks embedding_down "q" "u" 5 None
    = ([ExtractKeywords "q"; GenerateQueryEmbedding "q"], inr EmbeddingServiceError) /\
  length (match snd (fallbackKeywordSearch embedding_down "q" "u" 5 None (Some three_terms)) with
          | inl l => l | inr _ => [] end) = 4%nat.
Proof.
  split; [reflexivity|].
  split.
  - apply searchRelevantChunks_embedding_failure_propagates. reflexivity.
  - vm_compute. reflexivity.
Defined.

(** *** The lexical stage and the store's pattern matching *)

(** C7 (code bug): the terms are spliced into [ILIKE] patterns without
    escaping [_] and [%].  For the term ["a_c"] the pattern ["%a_c%"]
    matches the passage ["abc"], which does not contain the term, and the
    lexical stage returns that passage with [keyword_score] 0 and
    [match_ratio] 0. *)
Theorem fallbackKeywordSearch_returns_passage_without_term :
  fallbackKeywordSearch abc_env "a_c" "u" 5 None (Some underscore_term)
    = ([LexicalSelect ["%a_c%"%string] 10],
       inl [mkChunk "r1" "abc" 1 None (Some 0) (Some 0) (Some 0%nat)]) /\
  includes (toLowerCase (content abc_row)) (toLowerCase "a_c") = false.
Proof.
  split; vm_compute; reflexivity.
Qed.

(** *** Empty list of extracted terms *)

(** C8 (counterexample): extraction yields no term and the embedding is
    produced; the search issues the vector call only, with no lexical
    query at all. *)
Theorem searchRelevantChunks_no_terms_skips_lexical :
  searchRelevantChunks no_terms "hello" "u" 5 None
    = ([ExtractKeywords "hello"; GenerateQueryEmbedding "hello"; VectorRpc 5],
       inl (Rows [])).
Proof.
  vm_compute. reflexivity.
Qed.

(** C8 (amended): when extraction yields no term, the raw query becomes
    the sole lexical term ([%query%]) wherever the lexical stage runs: when
    the embedding is empty, and when [fallbackKeywordSearch] is called
    without terms or with an empty list; when a non-empty embedding is
    produced, the top-level search is vector-only, with no lexical query,
    and returns the vector rows, or nothing if the vector store fails. *)
Theorem searchRelevantChunks_empty_terms (E : env) (query userId : string)
    (limit : Z) (categoryId : option string)
    (Hk : extractKeywords E query = []) :
  let pats := [("%" ++ query ++ "%")%string] in
  let lexical :=
    match select_chunks E userId categoryId pats (limit * 2) with
    | inl rows => slice0 (sort_by keyword_cmp (map (rank_chunk [query]) rows)) limit
    | inr _ => []
    end in
  (forall x xs, generateQueryEmbedding E query = inl (x :: xs) ->
     searchRelevantChunks E query userId limit categoryId
       = ([ExtractKeywords query; GenerateQueryEmbedding query; VectorRpc limit],
          inl (Rows (match search_similar_chunks E (x :: xs) userId (3 # 10) limit categoryId with
                     | inl l => l | inr _ => [] end)))) /\
  (generateQueryEmbedding E query = inl [] ->
     searchRelevantChunks E query userId limit categoryId
       = ([ExtractKeywords query; GenerateQueryEmbedding query; LexicalSelect pats (limit * 2)],
          inl (Rows lexical))) /\
  fallbackKeywordSearch E query userId limit categoryId None
    = ([ExtractKeywords query; LexicalSelect pats (limit * 2)], inl lexical) /\
  fallbackKeywordSearch E query userId limit categoryId (Some [])
    = ([LexicalSelect pats (limit * 2)], inl lexical).
Proof.
  intros pats lexical.
  split; [|split; [|split]].
  - intros x xs He.
    unfold searchRelevantChunks, performVectorSearchWithEmbedding, bind, call, catch, ret.
    rewrite Hk, He. simpl.
    destruct (search_similar_chunks E (x :: xs) userId (3 # 10) limit categoryId); reflexivity.
  - intros He.
    unfold searchRelevantChunks, fallbackKeywordSearch, bind, call, settle, ret.
    rewrite Hk, He. simpl.
    subst lexical pats.
    destruct (select_chunks E userId categoryId _ (limit * 2)); reflexivity.
  - unfold fallbackKeywordSearch, bind, call, settle, ret.
    rewrite Hk. simpl.
    subst lexical pats.
    destruct (select_chunks E userId categoryId _ (limit * 2)); reflexivity.
  - unfold fallbackKeywordSearch, bind, call, settle, ret. simpl.
    subst lexical pats.
    destruct (select_chunks E userId categoryId _ (limit * 2)); reflexivity.
Qed.

Lemma searchRelevantChunks_empty_terms_witness :
  extractKeywords no_terms "hello" = [] /\
  searchRelevantChunks no_terms "hello" "u" 5 None
    = ([ExtractKeywords "hello"; GenerateQueryEmbedding "hello"; VectorRpc 5], inl (Rows [])) /\
  fallbackKeywordSearch no_terms "hello" "u" 5 None None
    = ([ExtractKeywords "hello"; LexicalSelect ["%hello%"%string] 10], inl []).
Proof.
  split; [reflexivity|].
  destruct (searchRelevantChunks_empty_terms no_terms "hello" "u" 5 None eq_refl)
    as (H1 & _ & H3 & _).
  split.
  - rewrite (H1 1%Q []) by reflexivity. reflexivity.
  - rewrite H3. vm_compute. reflexivity.
Defined.

End SearchFacts.

(** ** Properties of the document chunker *)
Module ChunkingFacts.
Import Utf16 Chunking.

(** *** [trim], [slice] and [visible] *)

Lemma trim_start_split (s : list Z) :
  exists p, s = p ++ trim_start s /\ Forall (fun u => is_ws u = true) p.
Proof.
  induction s as [|u s IH]; simpl.
  - exists []. auto.
  - destruct (is_ws u) eqn:Hu.
    + destruct IH as [p [Hp Hf]]. exists (u :: p). split; [simpl; congruence | constructor; auto].
    + exists []. auto.
Qed.

Lemma trim_start_head (s : list Z) :
  trim_start s = [] \/ exists u t, trim_start s = u :: t /\ is_ws u = false.
Proof.
  induction s as [|u s IH]; simpl; auto.
  destruct (is_ws u) eqn:Hu; auto. right. eauto.
Qed.

Lemma trim_start_idem (s : list Z) : trim_start (trim_start s) = trim_start s.
Proof.
  induction s as [|u s IH]; simpl; auto.
  destruct (is_ws u) eqn:Hu; auto. simpl. rewrite Hu. reflexivity.
Qed.

Lemma visible_app (a b : list Z) : visible (a ++ b) = visible a ++ visible b.
Proof. unfold visible. apply filter_app. Qed.

Lemma visible_ws (p : list Z) : Forall (fun u => is_ws u = true) p -> visible p = [].
Proof.
  induction 1 as [|u p Hu _ IH]; simpl; auto. unfold visible in *. simpl. rewrite Hu. exact IH.
Qed.

Lemma visible_trim_start (s : list Z) : visible (trim_start s) = visible s.
Proof.
  destruct (trim_start_split s) as [p [Hp Hf]].
  rewrite Hp at 2. rewrite visible_app, (visible_ws _ Hf). reflexivity.
Qed.

Lemma visible_rev (s : list Z) : visible (rev s) = rev (visible s).
Proof.
  induction s as [|u s IH]; simpl; auto.
  rewrite visible_app, IH. unfold visible. simpl.
  destruct (negb (is_ws u)); simpl; auto using app_nil_r.
Qed.

Lemma visible_trim (s : list Z) : visible (trim s) = visible s.
Proof.
  unfold trim. rewrite visible_rev, visible_trim_start, visible_rev, visible_trim_start.
  apply rev_involutive.
Qed.

Lemma length_trim_start (s : list Z) : (length (trim_start s) <= length s)%nat.
Proof.
  destruct (trim_start_split s) as [p [Hp _]].
  rewrite Hp at 2. rewrite length_app. lia.
Qed.

Lemma length_trim (s : list Z) : (length (trim s) <= length s)%nat.
Proof.
  unfold trim. rewrite length_rev.
  pose proof (length_trim_start (rev (trim_start s))).
  pose proof (length_trim_start s). rewrite length_rev in H. lia.
Qed.

Lemma trim_nil_iff (s : list Z) : trim s = [] <-> visible s = [].
Proof.
  split.
  - intros H. rewrite <- visible_trim, H. reflexivity.
  - intros H. assert (Hs : trim_start s = []).
    { induction s as [|u s IH]; simpl in *; auto.
      unfold visible in H. simpl in H.
      destruct (is_ws u); simpl in H; [auto | discriminate]. }
    unfold trim. rewrite Hs. reflexivity.
Qed.

Lemma trim_idem (s : list Z) : trim (trim s) = trim s.
Proof.
  unfold trim at 2 3.
  set (Y := trim_start s).
  set (Zs := trim_start (rev Y)).
  assert (HZ : trim_start (rev Zs) = rev Zs).
  { destruct (trim_start_split (rev Y)) as [p [Hp _]].
    fold Zs in Hp.
    assert (HY : Y = rev Zs ++ rev p).
    { rewrite <- (rev_involutive Y), Hp, rev_app_distr. reflexivity. }
    destruct (rev Zs) as [|u t] eqn:E; [reflexivity|].
    destruct (trim_start_head s) as [H0|(u' & t' & H1 & H2)].
    - fold Y in H0. rewrite H0 in HY. discriminate.
    - fold Y in H1. rewrite H1 in HY. simpl in HY. injection HY as -> _.
      simpl. rewrite H2. reflexivity. }
  unfold trim. rewrite HZ, rev_involutive.
  subst Zs. rewrite trim_start_idem. reflexivity.
Qed.

Lemma infix_refl (s : list Z) : infix s s.
Proof. exists [], []. rewrite app_nil_r. reflexivity. Qed.

Lemma infix_trans (a b c : list Z) : infix a b -> infix b c -> infix a c.
Proof.
  intros (x & y & ->) (x' & y' & ->).
  exists (x' ++ x), (y ++ y'). rewrite !app_assoc. reflexivity.
Qed.

Lemma trim_infix (s : list Z) : infix (trim s) s.
Proof.
  destruct (trim_start_split s) as [p [Hp _]].
  destruct (trim_start_split (rev (trim_start s))) as [p' [Hp' _]].
  exists p, (rev p'). unfold trim.
  set (Y := trim_start s) in *. set (W := trim_start (rev Y)) in *.
  assert (HY : Y = rev W ++ rev p').
  { rewrite <- (rev_involutive Y), Hp', rev_app_distr. reflexivity. }
  rewrite Hp at 1. rewrite HY at 1. reflexivity.
Qed.

Lemma slice_infix (s : list Z) (a b : Z) : infix (slice s a b) s.
Proof.
  unfold slice.
  match goal with
  | |- infix (firstn ?n (skipn ?m s)) s =>
      exists (firstn m s), (skipn n (skipn m s));
      rewrite firstn_skipn, firstn_skipn; reflexivity
  end.
Qed.

Lemma length_slice (s : list Z) (a b : Z) :
  (0 <= a)%Z -> (a <= b)%Z -> (b <= Z.of_nat (length s))%Z ->
  Z.of_nat (length (slice s a b)) = (b - a)%Z.
Proof.
  intros Ha Hab Hb. unfold slice.
  destruct (Z.ltb_spec a 0); [lia|]. destruct (Z.ltb_spec b 0); [lia|].
  rewrite length_firstn, length_skipn. lia.
Qed.

(** *** [chunkText] *)

Section ChunkLoop.
Variables (text : list Z) (chunkSize overlap : Z).

Lemma chunk_loop_S (fuel : nat) (start : Z) :
  chunk_loop (S fuel) text chunkSize overlap start =
  (let len := Z.of_nat (length text) in
   if start <? len then
     let end_ := Z.min (start + chunkSize) len in
     let chunk := slice text start end_ in
     if end_ =? len then Some [trim chunk]
     else option_map (cons (trim chunk))
            (chunk_loop fuel text chunkSize overlap (end_ - overlap))
   else Some []).
Proof. reflexivity. Qed.

(** The shape of every piece the loop produces, from any start position
    that is not negative. *)
Lemma chunk_loop_pieces (fuel : nat) (start : Z) (pieces : list (list Z)) :
  (0 < chunkSize)%Z -> (overlap < chunkSize)%Z -> (0 <= start)%Z ->
  chunk_loop fuel text chunkSize overlap start = Some pieces ->
  Forall (fun c => trim c = c /\ (Z.of_nat (length c) <= chunkSize)%Z /\ infix c text) pieces.
Proof.
  intros Hcs Hov.
  revert start pieces. induction fuel as [|fuel IH]; intros start pieces Hst H; simpl in H; [discriminate|].
  set (len := Z.of_nat (length text)) in H.
  assert (Hpiece : (start < len)%Z ->
    let c := trim (slice text start (Z.min (start + chunkSize) len)) in
    trim c = c /\ (Z.of_nat (length c) <= chunkSize)%Z /\ infix c text).
  { intros Hlt c. split; [apply trim_idem|]. split.
    - pose proof (length_trim (slice text start (Z.min (start + chunkSize) len))).
      pose proof (length_slice text start (Z.min (start + chunkSize) len)
                    Hst ltac:(lia) ltac:(unfold len; lia)).
      unfold c. lia.
    - eapply infix_trans; [apply trim_infix | apply slice_infix]. }
  destruct (Z.ltb_spec start len) as [Hlt|Hge].
  - specialize (Hpiece Hlt).
    destruct (Z.eqb_spec (Z.min (start + chunkSize) len) len).
    + injection H as <-. constructor; [exact Hpiece | constructor].
    + destruct (chunk_loop fuel text chunkSize overlap (Z.min (start + chunkSize) len - overlap))
        as [rest|] eqn:E; simpl in H; [|discriminate].
      injection H as <-. constructor; [exact Hpiece|].
      eapply IH; [|exact E]. lia.
  - injection H as <-. constructor.
Qed.

(** The loop returns within [n + 1] iterations when at most [n] code
    units are left. *)
Lemma chunk_loop_returns (n : nat) (start : Z) :
  (overlap < chunkSize)%Z -> (0 <= start)%Z ->
  (Z.of_nat (length text) - start <= Z.of_nat n)%Z ->
  exists pieces, chunk_loop (S n) text chunkSize overlap start = Some pieces.
Proof.
  intros Hov. revert start.
  induction n as [|n IH]; intros start Hst Hf; rewrite chunk_loop_S; cbv zeta;
    set (len := Z.of_nat (length text)) in *.
  - destruct (Z.ltb_spec start len); [lia|eauto].
  - destruct (Z.ltb_spec start len) as [Hlt|Hge]; [|eauto].
    destruct (Z.eqb_spec (Z.min (start + chunkSize) len) len); [eauto|].
    destruct (IH (Z.min (start + chunkSize) len - overlap)) as [rest E]; [lia | lia |].
    rewrite E. simpl. eauto.
Qed.

(** With [chunkSize <= overlap] and more than [max chunkSize 0] code units,
    the start position never becomes positive and the loop never ends. *)
Lemma chunk_loop_diverges (fuel : nat) (start : Z) :
  (chunkSize <= overlap)%Z -> (Z.max chunkSize 0 < Z.of_nat (length text))%Z ->
  (start <= 0)%Z -> chunk_loop fuel text chunkSize overlap start = None.
Proof.
  intros Hov Hlen. revert start.
  induction fuel as [|fuel IH]; intros start Hst; simpl; [reflexivity|].
  set (len := Z.of_nat (length text)) in *.
  destruct (Z.ltb_spec start len); [|lia].
  destruct (Z.eqb_spec (Z.min (start + chunkSize) len) len); [lia|].
  rewrite IH by lia. reflexivity.
Qed.

End ChunkLoop.

Lemma skipn_split {A} (a b : nat) (l : list A) :
  (a <= b)%nat -> skipn a l = firstn (b - a) (skipn a l) ++ skipn b l.
Proof.
  intros Hab. rewrite <- (firstn_skipn (b - a) (skipn a l)) at 1.
  rewrite skipn_skipn. do 2 f_equal. lia.
Qed.

Lemma slice_nat (s : list Z) (a b : Z) :
  (0 <= a)%Z -> (a <= b)%Z -> (b <= Z.of_nat (length s))%Z ->
  slice s a b = firstn (Z.to_nat b - Z.to_nat a) (skipn (Z.to_nat a) s).
Proof.
  intros Ha Hab Hb. unfold slice.
  destruct (Z.ltb_spec a 0); [lia|]. destruct (Z.ltb_spec b 0); [lia|].
  f_equal; [|f_equal]; lia.
Qed.

Lemma visible_infix_nil (c s : list Z) : infix c s -> visible s = [] -> visible c = [].
Proof.
  intros (a & b & ->). rewrite !visible_app. intros H.
  apply app_eq_nil in H as [_ H]. apply app_eq_nil in H. tauto.
Qed.

Lemma trimmed_visible (c : list Z) : c <> [] -> trim c = c -> visible c <> [].
Proof. intros Hc Ht Hv. apply trim_nil_iff in Hv. congruence. Qed.

(** With a non-negative overlap the slices cover the text from [start] on:
    some visible code unit there gives a non-empty piece. *)
Lemma chunk_loop_covers (text : list Z) (chunkSize overlap : Z) (fuel : nat) (start : Z)
    (pieces : list (list Z)) :
  (0 <= overlap)%Z -> (overlap < chunkSize)%Z -> (0 <= start)%Z ->
  chunk_loop fuel text chunkSize overlap start = Some pieces ->
  visible (skipn (Z.to_nat start) text) <> [] -> Exists (fun c => c <> []) pieces.
Proof.
  intros Hov0 Hov. revert start pieces.
  induction fuel as [|fuel IH]; intros start pieces Hst H Hvis; [discriminate|].
  rewrite chunk_loop_S in H. cbv zeta in H.
  set (len := Z.of_nat (length text)) in *.
  destruct (Z.ltb_spec start len) as [Hlt|Hge].
  - set (end_ := Z.min (start + chunkSize) len) in *.
    assert (Hsl : slice text start end_ =
                  firstn (Z.to_nat end_ - Z.to_nat start) (skipn (Z.to_nat start) text))
      by (apply slice_nat; unfold end_, len in *; lia).
    assert (Hsp : visible (skipn (Z.to_nat start) text) =
                  visible (slice text start end_) ++ visible (skipn (Z.to_nat end_) text)).
    { rewrite Hsl, <- visible_app, <- skipn_split by lia. reflexivity. }
    assert (Hhead : forall rest, pieces = trim (slice text start end_) :: rest ->
                    visible (slice text start end_) <> [] -> Exists (fun c => c <> []) pieces).
    { intros rest -> Hv. constructor. intros Ht. apply trim_nil_iff in Ht. contradiction. }
    destruct (visible (slice text start end_)) as [|u vs] eqn:Hv.
    + rewrite Hsp in Hvis. simpl in Hvis.
      destruct (Z.eqb_spec end_ len) as [Heq|Hne].
      * exfalso. apply Hvis. rewrite skipn_all2; [reflexivity|]. unfold len in Heq. lia.
      * destruct (chunk_loop fuel text chunkSize overlap (end_ - overlap)) as [rest|] eqn:E;
          [|discriminate].
        injection H as <-. apply Exists_cons_tl. eapply IH; [| exact E |]; [unfold end_; lia|].
        rewrite (skipn_split (Z.to_nat (end_ - overlap)) (Z.to_nat end_)) by lia.
        rewrite visible_app. intros Hn. apply app_eq_nil in Hn. tauto.
    + destruct (end_ =? len).
      * injection H as <-. eapply Hhead; [reflexivity | discriminate].
      * destruct (chunk_loop fuel text chunkSize overlap (end_ - overlap)) as [rest|];
          [|discriminate].
        injection H as <-. eapply Hhead; [reflexivity | discriminate].
  - exfalso. apply Hvis. rewrite skipn_all2; [reflexivity|]. unfold len in Hge. lia.
Qed.

Lemma chunkText_spec (text : list Z) (chunkSize overlap : Z) :
  (0 < chunkSize)%Z -> (overlap < chunkSize)%Z ->
  exists chunks, chunkText text chunkSize overlap = Some chunks /\
    Forall (fun c => c <> [] /\ trim c = c /\ (Z.of_nat (length c) <= chunkSize)%Z /\
                     infix c text) chunks.
Proof.
  intros Hcs Hov.
  destruct (chunk_loop_returns text chunkSize overlap (length text) 0 Hov ltac:(lia) ltac:(lia))
    as [pieces E].
  exists (filter (fun chunk => (0 <? length chunk)%nat) pieces).
  unfold chunkText, chunkText_fuel. rewrite E. split; [reflexivity|].
  pose proof (chunk_loop_pieces text chunkSize overlap _ 0 pieces Hcs Hov ltac:(lia) E) as Hp.
  rewrite Forall_forall in *. intros c Hc.
  apply filter_In in Hc as [Hin Hlen].
  destruct (Hp c Hin) as (H1 & H2 & H3).
  split; [|auto]. intros ->. discriminate.
Qed.

Lemma chunkText_blank (text : list Z) (chunkSize overlap : Z) (chunks : list (list Z)) :
  (0 < chunkSize)%Z -> (overlap < chunkSize)%Z ->
  chunkText text chunkSize overlap = Some chunks -> visible text = [] -> chunks = [].
Proof.
  intros Hcs Hov H Hb.
  destruct (chunkText_spec text chunkSize overlap Hcs Hov) as (chunks' & E & Hall).
  rewrite H in E. injection E as <-.
  destruct chunks as [|c rest]; [reflexivity|].
  inversion Hall as [|c' rest' (Hc & Ht & _ & Hi) _]; subst.
  exfalso. apply (trimmed_visible c Hc Ht). eapply visible_infix_nil; eassumption.
Qed.

Lemma chunkText_covers (text : list Z) (chunkSize overlap : Z) (chunks : list (list Z)) :
  (0 <= overlap)%Z -> (overlap < chunkSize)%Z ->
  chunkText text chunkSize overlap = Some chunks -> visible text <> [] -> chunks <> [].
Proof.
  intros Hov0 Hov H Hv. unfold chunkText, chunkText_fuel in H.
  destruct (chunk_loop (S (length text)) text chunkSize overlap 0) as [pieces|] eqn:E;
    [|discriminate].
  injection H as <-.
  pose proof (chunk_loop_covers text chunkSize overlap _ 0 pieces Hov0 Hov ltac:(lia) E Hv) as Hex.
  apply Exists_exists in Hex as (c & Hin & Hc).
  intros Hnil. assert (Hf : In c (filter (fun chunk => (0 <? length chunk)%nat) pieces)).
  { apply filter_In. split; [exact Hin|]. destruct c; [congruence | reflexivity]. }
  rewrite Hnil in Hf. exact Hf.
Qed.

(** X2.  [chunkText(text, chunkSize, overlap)] returns (after some number
    of iterations of its loop) exactly when [overlap < chunkSize] or the
    text has at most [max(chunkSize, 0)] code units; otherwise its loop
    never ends. *)
Theorem chunkText_terminates_iff (text : list Z) (chunkSize overlap : Z) :
  (exists fuel chunks, chunkText_fuel fuel text chunkSize overlap = Some chunks) <->
  ((overlap < chunkSize)%Z \/ (Z.of_nat (length text) <= Z.max chunkSize 0)%Z).
Proof.
  split.
  - intros (fuel & chunks & H).
    destruct (Z.lt_ge_cases overlap chunkSize) as [Hov|Hov]; [left; exact Hov|].
    destruct (Z.le_gt_cases (Z.of_nat (length text)) (Z.max chunkSize 0)) as [Hl|Hl];
      [right; exact Hl|].
    exfalso. unfold chunkText_fuel in H.
    rewrite (chunk_loop_diverges text chunkSize overlap fuel 0 Hov Hl ltac:(lia)) in H.
    discriminate.
  - intros [Hov|Hl].
    + destruct (chunk_loop_returns text chunkSize overlap (length text) 0 Hov ltac:(lia) ltac:(lia))
        as [pieces E].
      exists (S (length text)), (filter (fun chunk => (0 <? length chunk)%nat) pieces).
      unfold chunkText_fuel. rewrite E. reflexivity.
    + exists 1%nat. unfold chunkText_fuel. rewrite chunk_loop_S. cbv zeta.
      destruct (Z.ltb_spec 0 (Z.of_nat (length text))); [|simpl; eauto].
      destruct (Z.eqb_spec (Z.min (0 + chunkSize) (Z.of_nat (length text)))
                           (Z.of_nat (length text))); [simpl; eauto | lia].
Qed.

Lemma chunkText_terminates_iff_witness :
  ~ exists fuel chunks, chunkText_fuel fuel [97; 98; 99] 1 1 = Some chunks.
Proof.
  intros H. apply chunkText_terminates_iff in H. simpl in H. lia.
Defined.

(** *** [normalizeChunks] *)

Lemma visible_texts_app (a b : list ChunkData) :
  visible_texts (a ++ b) = visible_texts a ++ visible_texts b.
Proof. unfold visible_texts. rewrite map_app, concat_app. reflexivity. Qed.

Lemma visible_texts_cons (c : ChunkData) (l : list ChunkData) :
  visible_texts (c :: l) = visible (text c) ++ visible_texts l.
Proof. reflexivity. Qed.

Lemma trim_nonempty_visible (s : list Z) : (0 < length (trim s))%nat -> visible (trim s) <> [].
Proof.
  intros H Hv. rewrite visible_trim in Hv. apply trim_nil_iff in Hv.
  rewrite Hv in H. simpl in H. lia.
Qed.

Lemma split_loop_S (f : nat) (t : list Z) (meta : chunk_metadata) (start partIndex : nat) :
  split_loop (S f) t meta start partIndex =
  (if (start <? length t)%nat then
     let end_ := Nat.min (start + MAX_CHUNK_SIZE) (length t) in
     let partText := trim (firstn (end_ - start) (skipn start t)) in
     if (0 <? length partText)%nat then
       mkChunkData partText
         (mkMetadata (source meta) (page_number meta)
                     (Some (part_section (section meta) (partIndex + 1))))
         :: split_loop f t meta end_ (S partIndex)
     else split_loop f t meta end_ partIndex
   else []).
Proof. reflexivity. Qed.

(** Every part of an oversized chunk has at most [MAX_CHUNK_SIZE] code
    units and some visible code unit. *)
Lemma split_loop_parts (f : nat) (t : list Z) (meta : chunk_metadata) (start partIndex : nat) :
  Forall (fun c => (length (text c) <= MAX_CHUNK_SIZE)%nat /\ visible (text c) <> [])
         (split_loop f t meta start partIndex).
Proof.
  revert start partIndex. induction f as [|f IH]; intros start partIndex; [constructor|].
  rewrite split_loop_S. cbv zeta.
  destruct (start <? length t)%nat; [|constructor].
  destruct (0 <? length (trim _))%nat eqn:Hp; [|apply IH].
  constructor; [|apply IH]. simpl. split.
  - eapply Nat.le_trans; [apply length_trim|]. rewrite length_firstn. unfold MAX_CHUNK_SIZE. lia.
  - apply trim_nonempty_visible. apply Nat.ltb_lt. exact Hp.
Qed.

(** The parts carry all visible code units of the text from [start] on,
    in order. *)
Lemma split_loop_visible (f : nat) (t : list Z) (meta : chunk_metadata) (start partIndex : nat) :
  (length t - start <= f)%nat ->
  visible_texts (split_loop f t meta start partIndex) = visible (skipn start t).
Proof.
  revert start partIndex. induction f as [|f IH]; intros start partIndex Hf.
  - simpl. rewrite skipn_all2 by lia. reflexivity.
  - rewrite split_loop_S. cbv zeta.
    destruct (Nat.ltb_spec start (length t)) as [Hlt|Hge].
    + set (end_ := Nat.min (start + MAX_CHUNK_SIZE) (length t)).
      assert (Hsplit : skipn start t = firstn (end_ - start) (skipn start t) ++ skipn end_ t).
      { rewrite <- (firstn_skipn (end_ - start) (skipn start t)) at 1.
        rewrite skipn_skipn. f_equal. f_equal. unfold end_, MAX_CHUNK_SIZE. lia. }
      assert (Hvs : visible (skipn start t) =
                    visible (firstn (end_ - start) (skipn start t)) ++ visible (skipn end_ t))
        by (rewrite <- visible_app, <- Hsplit; reflexivity).
      rewrite Hvs.
      assert (Hrest : visible_texts (split_loop f t meta end_ (S partIndex)) = visible (skipn end_ t)
                      /\ visible_texts (split_loop f t meta end_ partIndex) = visible (skipn end_ t)).
      { split; apply IH; unfold end_, MAX_CHUNK_SIZE; lia. }
      destruct (0 <? length (trim _))%nat eqn:Hp.
      * rewrite visible_texts_cons. simpl text. rewrite visible_trim, (proj1 Hrest). reflexivity.
      * rewrite (proj2 Hrest).
        apply Nat.ltb_ge in Hp. assert (Hn : trim (firstn (end_ - start) (skipn start t)) = [])
          by (destruct (trim _); [reflexivity | simpl in Hp; lia]).
        apply trim_nil_iff in Hn. rewrite Hn. reflexivity.
    + rewrite skipn_all2 by lia. reflexivity.
Qed.

(** [length t] iterations are enough for the splitting loop. *)
Lemma split_loop_fuel (f : nat) (t : list Z) (meta : chunk_metadata) (start partIndex : nat) :
  (length t - start <= f)%nat ->
  split_loop (S f) t meta start partIndex = split_loop f t meta start partIndex.
Proof.
  revert start partIndex. induction f as [|f IH]; intros start partIndex Hf.
  - rewrite split_loop_S. destruct (Nat.ltb_spec start (length t)); [lia|reflexivity].
  - rewrite split_loop_S. rewrite (split_loop_S f).
    destruct (Nat.ltb_spec start (length t)); [|reflexivity]. cbv zeta.
    rewrite !IH by (unfold MAX_CHUNK_SIZE; lia). reflexivity.
Qed.

Lemma merge_loop_extends (m : list Z) (rest : list ChunkData) :
  exists x pre, fst (merge_loop m rest) = m ++ x /\ rest = pre ++ snd (merge_loop m rest) /\
                visible x = visible_texts pre.
Proof.
  revert m. induction rest as [|c rest IH]; intros m; simpl.
  - exists [], []. rewrite app_nil_r. auto.
  - destruct (length m <? MIN_CHUNK_SIZE)%nat; [|exists [], []; rewrite app_nil_r; auto].
    destruct (length (m ++ 10%Z :: 10%Z :: text c) <=? MAX_CHUNK_SIZE)%nat;
      [|exists [], []; rewrite app_nil_r; auto].
    destruct (IH (m ++ 10%Z :: 10%Z :: text c)) as (x & pre & H1 & H2 & H3).
    exists ([10%Z; 10%Z] ++ text c ++ x), (c :: pre). rewrite H1, <- !app_assoc.
    split; [reflexivity|]. split; [simpl; congruence|].
    rewrite !visible_app, H3. reflexivity.
Qed.

Lemma merge_loop_size (m : list Z) (rest : list ChunkData) :
  (length m <= MAX_CHUNK_SIZE)%nat -> (length (fst (merge_loop m rest)) <= MAX_CHUNK_SIZE)%nat.
Proof.
  revert m. induction rest as [|c rest IH]; intros m Hm; simpl; [exact Hm|].
  destruct (length m <? MIN_CHUNK_SIZE)%nat; [|exact Hm].
  destruct (Nat.leb_spec (length (m ++ 10%Z :: 10%Z :: text c)) MAX_CHUNK_SIZE); [|exact Hm].
  apply IH. assumption.
Qed.

Lemma normalize_loop_S (f : nat) (chunks : list ChunkData) :
  normalize_loop (S f) chunks =
  match chunks with
  | [] => []
  | currentChunk :: rest =>
      if (MAX_CHUNK_SIZE <? length (text currentChunk))%nat then
        split_loop (length (text currentChunk)) (text currentChunk) (metadata currentChunk) 0 0
          ++ normalize_loop f rest
      else if (length (text currentChunk) <? MIN_CHUNK_SIZE)%nat &&
              negb (match rest with [] => true | _ => false end) then
        let '(mergedText, rest') := merge_loop (text currentChunk) rest in
        mkChunkData (trim mergedText) (metadata currentChunk) :: normalize_loop f rest'
      else currentChunk :: normalize_loop f rest
  end.
Proof. reflexivity. Qed.

(** [length chunks] iterations are enough for the outer loop. *)
Lemma normalize_loop_fuel (f : nat) (chunks : list ChunkData) :
  (length chunks <= f)%nat -> normalize_loop (S f) chunks = normalize_loop f chunks.
Proof.
  revert chunks. induction f as [|f IH]; intros chunks Hf.
  - destruct chunks; [reflexivity | simpl in Hf; lia].
  - rewrite normalize_loop_S, (normalize_loop_S f).
    destruct chunks as [|c rest]; [reflexivity|]. simpl in Hf.
    destruct (MAX_CHUNK_SIZE <? length (text c))%nat; [rewrite IH by lia; reflexivity|].
    destruct (_ && _); [|rewrite IH by lia; reflexivity].
    destruct (merge_loop_extends (text c) rest) as (x & pre & _ & Hpre & _).
    destruct (merge_loop (text c) rest) as [m rest'] eqn:E. simpl in Hpre.
    rewrite IH; [reflexivity|].
    assert (length rest = length pre + length rest')%nat by (rewrite Hpre, length_app; reflexivity).
    lia.
Qed.

Lemma normalize_loop_max (f : nat) (chunks : list ChunkData) :
  Forall (fun c => (length (text c) <= MAX_CHUNK_SIZE)%nat) (normalize_loop f chunks).
Proof.
  revert chunks. induction f as [|f IH]; intros chunks; [constructor|].
  rewrite normalize_loop_S. destruct chunks as [|c rest]; [constructor|].
  destruct (Nat.ltb_spec MAX_CHUNK_SIZE (length (text c))) as [Hbig|Hsmall].
  - apply Forall_app. split; [|apply IH].
    eapply Forall_impl; [|apply split_loop_parts]. simpl. tauto.
  - destruct (_ && _).
    + pose proof (merge_loop_size (text c) rest Hsmall) as Hm.
      destruct (merge_loop (text c) rest) as [m rest']. simpl in Hm.
      constructor; [|apply IH]. simpl. pose proof (length_trim m). lia.
    + constructor; [exact Hsmall | apply IH].
Qed.

Lemma normalize_loop_nonblank (f : nat) (chunks : list ChunkData) :
  Forall (fun c => visible (text c) <> []) chunks ->
  Forall (fun c => visible (text c) <> []) (normalize_loop f chunks).
Proof.
  revert chunks. induction f as [|f IH]; intros chunks Hall; [constructor|].
  rewrite normalize_loop_S. destruct chunks as [|c rest]; [constructor|].
  inversion Hall as [|c' rest' Hc Hrest]; subst.
  destruct (MAX_CHUNK_SIZE <? length (text c))%nat.
  - apply Forall_app. split; [|apply IH; exact Hrest].
    eapply Forall_impl; [|apply split_loop_parts]. simpl. tauto.
  - destruct (_ && _); [|constructor; [exact Hc | apply IH; exact Hrest]].
    destruct (merge_loop_extends (text c) rest) as (x & pre & Hx & Hpre & _).
    destruct (merge_loop (text c) rest) as [m rest'] eqn:E. simpl in Hx, Hpre.
    constructor.
    + simpl. rewrite visible_trim, Hx, visible_app. intros Hv.
      apply Hc. destruct (visible (text c)); [reflexivity | discriminate].
    + apply IH. rewrite Hpre in Hrest. apply Forall_app in Hrest. tauto.
Qed.

Lemma normalize_loop_visible (f : nat) (chunks : list ChunkData) :
  (length chunks <= f)%nat -> visible_texts (normalize_loop f chunks) = visible_texts chunks.
Proof.
  revert chunks. induction f as [|f IH]; intros chunks Hf.
  - destruct chunks; [reflexivity | simpl in Hf; lia].
  - rewrite normalize_loop_S. destruct chunks as [|c rest]; [reflexivity|]. simpl in Hf.
    rewrite visible_texts_cons.
    destruct (MAX_CHUNK_SIZE <? length (text c))%nat.
    + rewrite visible_texts_app, split_loop_visible by lia. rewrite IH by lia. reflexivity.
    + destruct (_ && _); [|rewrite visible_texts_cons, IH by lia; reflexivity].
      destruct (merge_loop_extends (text c) rest) as (x & pre & Hx & Hpre & Hvis).
      destruct (merge_loop (text c) rest) as [m rest'] eqn:E. simpl in Hx, Hpre.
      rewrite visible_texts_cons. simpl text. rewrite visible_trim, Hx, visible_app, Hvis.
      assert (length rest = length pre + length rest')%nat by (rewrite Hpre, length_app; reflexivity).
      rewrite IH by lia. rewrite Hpre, visible_texts_app, app_assoc. reflexivity.
Qed.

(** X3.  No chunk returned by [normalizeChunks] has more than
    [MAX_CHUNK_SIZE] (1024) code units, whatever the input: the warning
    about oversized chunks at the end of the function never fires. *)
Theorem normalizeChunks_max_size (chunks : list ChunkData) :
  Forall (fun c => (length (text c) <= MAX_CHUNK_SIZE)%nat) (normalizeChunks chunks).
Proof. apply normalize_loop_max. Qed.

(** X4.  [normalizeChunks] keeps every visible (non-white-space) code unit
    of its input, in order, and adds none: splitting, merging with
    ["\n\n"] and trimming only move, insert or remove white space. *)
Theorem normalizeChunks_visible (chunks : list ChunkData) :
  concat (map (fun c => visible (text c)) (normalizeChunks chunks)) =
  concat (map (fun c => visible (text c)) chunks).
Proof. apply normalize_loop_visible. lia. Qed.

(** X5.  If every input chunk has a visible code unit, so has every chunk
    [normalizeChunks] returns (no chunk of white space only, no empty
    chunk). *)
Theorem normalizeChunks_nonblank (chunks : list ChunkData) :
  Forall (fun c => visible (text c) <> []) chunks ->
  Forall (fun c => visible (text c) <> []) (normalizeChunks chunks).
Proof. apply normalize_loop_nonblank. Qed.

(** The oversized chunk goes through the split (its first slice loses
    the trailing space to [trim]) and the two short ones through the
    merge: the output has chunks of 1023, 100 and 5 code units. *)
Lemma normalizeChunks_nonblank_witness :
  Forall (fun c => visible (text c) <> []) Samples.normalize_input /\
  Forall (fun c => visible (text c) <> []) (normalizeChunks Samples.normalize_input) /\
  map (fun c => length (text c)) (normalizeChunks Samples.normalize_input) = [1023; 100; 5]%nat.
Proof.
  assert (H : Forall (fun c => visible (text c) <> []) Samples.normalize_input).
  { repeat constructor; vm_compute; discriminate. }
  split; [exact H|]. split; [apply (normalizeChunks_nonblank _ H)|].
  vm_compute. reflexivity.
Defined.

(** X6.  With a positive [chunkSize] and [0 <= overlap < chunkSize],
    [chunkText] returns no chunk exactly when the text is empty or white
    space only. *)
Theorem chunkText_empty_iff_blank (text : list Z) (chunkSize overlap : Z)
    (chunks : list (list Z)) :
  (0 < chunkSize)%Z -> (0 <= overlap)%Z -> (overlap < chunkSize)%Z ->
  chunkText text chunkSize overlap = Some chunks -> (chunks = [] <-> visible text = []).
Proof.
  intros Hcs Hov0 Hov H. split.
  - intros Hn. destruct (visible text) as [|u vs] eqn:Hv; [reflexivity|].
    exfalso. apply (chunkText_covers text chunkSize overlap chunks Hov0 Hov H);
      [rewrite Hv; discriminate | exact Hn].
  - apply (chunkText_blank text chunkSize overlap chunks Hcs Hov H).
Qed.

Lemma chunkText_empty_iff_blank_witness :
  (0 < 2)%Z /\ (0 <= 1)%Z /\ (1 < 2)%Z /\
  chunkText [97; 32; 98] 2 1 = Some [[97]; [98]] /\
  ([[97]; [98]] = [] <-> visible [97; 32; 98] = []).
Proof.
  split; [lia|]. split; [lia|]. split; [lia|]. split; [vm_compute; reflexivity|].
  apply (chunkText_empty_iff_blank [97; 32; 98] 2 1); [lia | lia | lia | vm_compute; reflexivity].
Defined.

(** *** [generateChunkEmbeddings] and [processTextDocument] *)

Lemma Forall_conj {A} (P Q : A -> Prop) (l : list A) :
  Forall P l -> Forall Q l -> Forall (fun x => P x /\ Q x) l.
Proof. induction 1; inversion 1; subst; constructor; auto. Qed.

Lemma Forall2_Forall_r {A B} (R : A -> B -> Prop) (P : A -> Prop) (Q : B -> Prop)
    (l1 : list A) (l2 : list B) :
  (forall a b, R a b -> P a -> Q b) -> Forall2 R l1 l2 -> Forall P l1 -> Forall Q l2.
Proof. intros HPQ. induction 1; inversion 1; subst; constructor; eauto. Qed.

Lemma split_loop_meta (f : nat) (t : list Z) (meta : chunk_metadata) (start partIndex : nat) :
  Forall (fun c => source (metadata c) = source meta /\ page_number (metadata c) = page_number meta)
         (split_loop f t meta start partIndex).
Proof.
  revert start partIndex. induction f as [|f IH]; intros start partIndex; [constructor|].
  rewrite split_loop_S. cbv zeta.
  destruct (start <? length t)%nat; [|constructor].
  destruct (0 <? length (trim _))%nat; [|apply IH].
  constructor; [simpl; auto | apply IH].
Qed.

(** Splitting and merging keep the [source] and [page_number] of the
    chunks. *)
Lemma normalize_loop_meta (f : nat) (chunks : list ChunkData) (src : list Z) (pg : Z) :
  Forall (fun c => source (metadata c) = src /\ page_number (metadata c) = pg) chunks ->
  Forall (fun c => source (metadata c) = src /\ page_number (metadata c) = pg)
         (normalize_loop f chunks).
Proof.
  revert chunks. induction f as [|f IH]; intros chunks Hall; [constructor|].
  rewrite normalize_loop_S. destruct chunks as [|c rest]; [constructor|].
  inversion Hall as [|c' rest' [Hs Hp] Hrest]; subst.
  destruct (MAX_CHUNK_SIZE <? length (text c))%nat.
  - apply Forall_app. split; [|apply IH; exact Hrest].
    eapply Forall_impl; [|apply split_loop_meta]. simpl. intros a [-> ->]. auto.
  - destruct (_ && _); [|constructor; [auto | apply IH; exact Hrest]].
    destruct (merge_loop_extends (text c) rest) as (x & pre & _ & Hpre & _).
    destruct (merge_loop (text c) rest) as [m rest'] eqn:E. simpl in Hpre.
    constructor; [simpl; auto|].
    apply IH. rewrite Hpre in Hrest. apply Forall_app in Hrest. tauto.
Qed.

(** The rows of a successful run: the [i]-th row has index [i] and is made
    of the [i]-th chunk. *)
Lemma embed_loop_rows (emb : list Z -> list Q + Search.exn) (d : list Z) (i : nat)
    (chunks : list ChunkData) (rows : list chunk_row) :
  embed_loop emb d i chunks = inl rows ->
  map chunk_index rows = seq i (length rows) /\
  Forall2 (fun c r => row_content r = text c /\ row_metadata r = metadata c /\ document_id r = d)
          chunks rows.
Proof.
  revert i rows. induction chunks as [|c rest IH]; intros i rows H; simpl in H.
  - injection H as <-. split; constructor.
  - destruct (emb (text c)) as [v|e]; [|discriminate].
    destruct (embed_loop emb d (S i) rest) as [rows'|e] eqn:E; [|discriminate].
    injection H as <-. destruct (IH (S i) rows' E) as [Hidx Hrel].
    split; [simpl; rewrite Hidx; reflexivity|].
    constructor; [simpl; auto | exact Hrel].
Qed.

Lemma embed_loop_ok (emb : list Z -> list Q + Search.exn) (d : list Z) (i : nat)
    (chunks : list ChunkData) :
  (forall t, exists v, emb t = inl v) -> exists rows, embed_loop emb d i chunks = inl rows.
Proof.
  intros Hemb. revert i. induction chunks as [|c rest IH]; intros i; simpl; [eauto|].
  destruct (Hemb (text c)) as [v ->]. destruct (IH (S i)) as [rows ->]. eauto.
Qed.

(** X7.  [processTextDocument] returns (its chunking loop ends); when the
    embedding service never rejects, it succeeds; and the rows of a success
    are numbered [0, 1, 2, ...], all carry [documentId], have between one
    visible code unit and [MAX_CHUNK_SIZE] (1024) code units of content, and
    have [title + .txt] as source and page number 1. *)
Theorem processTextDocument_rows (generateDocumentEmbedding : list Z -> list Q + Search.exn)
    (content title documentId : list Z) :
  exists r, processTextDocument generateDocumentEmbedding content title documentId = Some r /\
    ((forall t, exists v, generateDocumentEmbedding t = inl v) -> exists rows, r = inl rows) /\
    (forall rows, r = inl rows ->
       map chunk_index rows = seq 0 (length rows) /\
       Forall (fun row => document_id row = documentId /\
                          (length (row_content row) <= MAX_CHUNK_SIZE)%nat /\
                          visible (row_content row) <> [] /\
                          source (row_metadata row) = title ++ str_txt /\
                          page_number (row_metadata row) = 1%Z) rows).
Proof.
  destruct (chunkText_spec content 1000 200 ltac:(lia) ltac:(lia)) as (chunks & E & Hc).
  unfold processTextDocument. rewrite E. cbn [option_map].
  eexists; split; [reflexivity|].
  set (raw := map (fun chunk => mkChunkData chunk (mkMetadata (title ++ str_txt) 1 None)) chunks).
  assert (Hnb : Forall (fun c => visible (text c) <> []) raw).
  { unfold raw. apply Forall_map. eapply Forall_impl; [|exact Hc].
    intros c (H1 & H2 & _). apply trimmed_visible; assumption. }
  assert (Hmeta : Forall (fun c => source (metadata c) = title ++ str_txt /\
                                   page_number (metadata c) = 1%Z) raw).
  { unfold raw. apply Forall_map. apply Forall_forall. intros c _. simpl. auto. }
  unfold generateChunkEmbeddings, normalizeChunks. split.
  - intros Hemb. apply embed_loop_ok. exact Hemb.
  - intros rows Hr. destruct (embed_loop_rows _ _ _ _ _ Hr) as [Hidx Hrel].
    split; [exact Hidx|].
    set (out := normalize_loop (length raw) raw) in *.
    assert (Hall : Forall (fun c => ((length (text c) <= MAX_CHUNK_SIZE)%nat /\
                                     visible (text c) <> []) /\
                                    (source (metadata c) = title ++ str_txt /\
                                     page_number (metadata c) = 1%Z)) out).
    { apply Forall_conj; [apply Forall_conj|].
      - apply normalize_loop_max.
      - apply normalize_loop_nonblank. exact Hnb.
      - apply normalize_loop_meta. exact Hmeta. }
    refine (Forall2_Forall_r _ _ _ out rows _ Hrel Hall).
    intros c r (Ht & Hm & Hd) ((Hmx & Hv) & Hs & Hp). rewrite Ht, Hm, Hd. auto.
Qed.

(** X8.  An empty or white-space-only document gives no row and no error,
    without calling the embedding service. *)
Theorem processTextDocument_blank (generateDocumentEmbedding : list Z -> list Q + Search.exn)
    (content title documentId : list Z) :
  visible content = [] ->
  processTextDocument generateDocumentEmbedding content title documentId = Some (inl []).
Proof.
  intros Hb.
  destruct (chunkText_spec content 1000 200 ltac:(lia) ltac:(lia)) as (chunks & E & _).
  pose proof (chunkText_blank content 1000 200 chunks ltac:(lia) ltac:(lia) E Hb) as ->.
  unfold processTextDocument. rewrite E. reflexivity.
Qed.

Lemma processTextDocument_blank_witness :
  visible [32; 10] = [] /\
  processTextDocument (fun _ => inr Search.EmbeddingServiceError) [32; 10] [] [] = Some (inl []).
Proof.
  split; [vm_compute; reflexivity|].
  apply processTextDocument_blank. vm_compute. reflexivity.
Defined.

(** X9.  A document with a visible code unit calls the embedding service,
    and a rejection of that service rejects the whole call: no row is
    returned. *)
Theorem processTextDocument_embedding_failure
    (generateDocumentEmbedding : list Z -> list Q + Search.exn) (e : Search.exn)
    (content title documentId : list Z) :
  visible content <> [] ->
  (forall t, generateDocumentEmbedding t = inr e) ->
  processTextDocument generateDocumentEmbedding content title documentId = Some (inr e).
Proof.
  intros Hv Hemb.
  destruct (chunkText_spec content 1000 200 ltac:(lia) ltac:(lia)) as (chunks & E & Hc).
  pose proof (chunkText_covers content 1000 200 chunks ltac:(lia) ltac:(lia) E Hv) as Hne.
  unfold processTextDocument. rewrite E. cbn [option_map]. f_equal.
  set (raw := map (fun chunk => mkChunkData chunk (mkMetadata (title ++ str_txt) 1 None)) chunks).
  assert (Hvis : visible_texts (normalizeChunks raw) = visible_texts raw)
    by (apply normalize_loop_visible; lia).
  unfold generateChunkEmbeddings.
  destruct (normalizeChunks raw) as [|c0 rest0] eqn:N.
  - exfalso. destruct chunks as [|c rest]; [contradiction|].
    inversion Hc as [|c' rest' (Hc1 & Hc2 & _) _]; subst.
    unfold raw in Hvis. cbn [map] in Hvis. rewrite visible_texts_cons in Hvis. simpl text in Hvis.
    apply (trimmed_visible c Hc1 Hc2).
    symmetry in Hvis. apply app_eq_nil in Hvis. tauto.
  - simpl. rewrite Hemb. reflexivity.
Qed.

Lemma processTextDocument_embedding_failure_witness :
  visible [97] <> [] /\
  (forall t : list Z, (fun _ : list Z => @inr (list Q) Search.exn Search.StoreError) t = inr Search.StoreError) /\
  processTextDocument (fun _ => inr Search.StoreError) [97] [] [] = Some (inr Search.StoreError).
Proof.
  split; [vm_compute; discriminate|]. split; [reflexivity|].
  apply processTextDocument_embedding_failure; [vm_compute; discriminate | reflexivity].
Defined.

End ChunkingFacts.

(** ** Facts about the local keyword extractor *)
Module LocalKeywordsFacts.
Import Utf16 LocalKeywords.
Open Scope Z_scope.

Definition no_ws (w : list Z) : Prop := Forall (fun u => is_ws u = false) w.

Lemma infix_nil (s : list Z) : infix [] s.
Proof. exists [], s. reflexivity. Qed.

Lemma infix_cons (w s : list Z) (u : Z) : infix w s -> infix w (u :: s).
Proof. intros (a & b & ->). exists (u :: a), b. reflexivity. Qed.

Lemma infix_Forall (P : Z -> Prop) (w s : list Z) : infix w s -> Forall P s -> Forall P w.
Proof.
  intros (a & b & ->) H. apply Forall_app in H as [_ H]. apply Forall_app in H. tauto.
Qed.

Lemma is_ws_32 : is_ws 32 = true.
Proof. reflexivity. Qed.

Lemma is_punct_32 : is_punct 32 = false.
Proof. reflexivity. Qed.

Lemma cjk_not_ws (u : Z) : is_cjk u = true -> is_ws u = false.
Proof.
  unfold is_cjk, is_ws. intros H. apply andb_prop in H as [H1 H2].
  apply Z.leb_le in H1. apply Z.leb_le in H2.
  destruct (_ || _) eqn:E; [|reflexivity].
  repeat rewrite orb_true_iff in E. repeat rewrite andb_true_iff in E.
  repeat rewrite Z.eqb_eq in E. repeat rewrite Z.leb_le in E. lia.
Qed.

Lemma cjk_not_punct (u : Z) : is_cjk u = true -> is_punct u = false.
Proof.
  unfold is_cjk, is_punct, punctuation. intros H. apply andb_prop in H as [H1 H2].
  apply Z.leb_le in H1. apply Z.leb_le in H2.
  destruct (existsb _ _) eqn:E; [|reflexivity]. simpl in E.
  repeat rewrite orb_true_iff in E. repeat rewrite Z.eqb_eq in E. lia.
Qed.

(** *** Where the words come from *)

Lemma collapse_ws_prefix (w s c : list Z) :
  no_ws w -> collapse_ws false s = w ++ c -> exists c', s = w ++ c'.
Proof.
  revert s c. induction w as [|x w IH]; intros s c Hw H; [exists s; reflexivity|].
  inversion Hw as [|x' w' Hx Hw']; subst.
  destruct s as [|u s']; [discriminate|]. simpl in H.
  destruct (is_ws u) eqn:Hu.
  - injection H as Hx32 _. subst x. rewrite is_ws_32 in Hx. discriminate.
  - injection H as -> H. destruct (IH s' c Hw' H) as [c' ->]. exists c'. reflexivity.
Qed.

(** A piece without white space of the collapsed text occurs in the text
    before collapsing. *)
Lemma collapse_ws_infix (s : list Z) (in_run : bool) (w : list Z) :
  no_ws w -> infix w (collapse_ws in_run s) -> infix w s.
Proof.
  revert in_run. induction s as [|u s IH]; intros in_run Hw H.
  - destruct H as (a & b & H). simpl in H. symmetry in H.
    apply app_eq_nil in H as [_ H]. apply app_eq_nil in H as [-> _]. apply infix_nil.
  - simpl in H. destruct (is_ws u) eqn:Hu.
    + destruct in_run.
      * apply infix_cons. eapply IH; eassumption.
      * destruct H as ([|y a] & b & H).
        -- destruct w as [|x w]; [apply infix_nil|].
           simpl in H. injection H as Hx _. inversion Hw as [|x' w' Hx' _]; subst.
           rewrite is_ws_32 in Hx'. discriminate.
        -- simpl in H. injection H as _ H. apply infix_cons. apply (IH true Hw). exists a, b. exact H.
    + destruct H as ([|y a] & b & H).
      * destruct w as [|x w]; [apply infix_nil|].
        simpl in H. injection H as -> H. inversion Hw as [|x' w' _ Hw']; subst.
        destruct (collapse_ws_prefix w s b Hw' H) as [c' ->].
        exists [], c'. reflexivity.
      * simpl in H. injection H as _ H. apply infix_cons. apply (IH false Hw). exists a, b. exact H.
Qed.

Lemma replace_punct_id (sw : list Z) :
  Forall (fun u => u <> 32) (replace_punct sw) -> replace_punct sw = sw.
Proof.
  induction sw as [|u sw IH]; intros H; [reflexivity|].
  inversion H as [|x l Hu Hrest]; subst. unfold replace_punct in *. simpl in *.
  rewrite IH by exact Hrest. destruct (is_punct u); [contradiction | reflexivity].
Qed.

(** A piece without a space of the text after replacing punctuation occurs
    in the original text. *)
Lemma replace_punct_infix (s w : list Z) :
  Forall (fun u => u <> 32) w -> infix w (replace_punct s) -> infix w s.
Proof.
  intros Hw (a & b & H). unfold replace_punct in H.
  apply map_eq_app in H as (sa & rest & -> & _ & H).
  apply map_eq_app in H as (sw & sb & -> & Hsw & _).
  exists sa, sb. f_equal. f_equal.
  rewrite <- Hsw in Hw |- *. symmetry. apply replace_punct_id. exact Hw.
Qed.

Lemma no_ws_not_32 (w : list Z) : no_ws w -> Forall (fun u => u <> 32) w.
Proof. apply Forall_impl. intros u Hu ->. rewrite is_ws_32 in Hu. discriminate. Qed.

Lemma cleanText_infix (text w : list Z) : no_ws w -> infix w (cleanText text) -> infix w text.
Proof.
  intros Hw H. unfold cleanText in H.
  apply replace_punct_infix; [apply no_ws_not_32; exact Hw|].
  eapply collapse_ws_infix; [exact Hw|].
  eapply ChunkingFacts.infix_trans; [exact H | apply ChunkingFacts.trim_infix].
Qed.

Lemma cleanText_no_punct (text : list Z) :
  Forall (fun u => is_punct u = false) (cleanText text).
Proof.
  unfold cleanText.
  assert (H1 : Forall (fun u => is_punct u = false) (replace_punct text)).
  { unfold replace_punct. apply Forall_map. apply Forall_forall. intros u _.
    destruct (is_punct u) eqn:Hu; [reflexivity | exact Hu]. }
  assert (H2 : forall b s, Forall (fun u => is_punct u = false) s ->
                 Forall (fun u => is_punct u = false) (collapse_ws b s)).
  { intros b s. revert b. induction s as [|u s IH]; intros b Hs; simpl; [constructor|].
    inversion Hs; subst.
    destruct (is_ws u); [destruct b|]; auto. }
  eapply infix_Forall; [apply ChunkingFacts.trim_infix | apply H2, H1].
Qed.

(** The pieces of [split(/\s+/)] have no white space and occur in the
    text; [in_ws] is only set right after a piece was closed. *)
Lemma split_ws_pieces (s cur : list Z) (in_ws : bool) (p : list Z) :
  (in_ws = true -> cur = []) -> no_ws cur -> In p (split_ws cur in_ws s) ->
  no_ws p /\ infix p (rev cur ++ s).
Proof.
  revert cur in_ws. induction s as [|u s IH]; intros cur in_ws Hin Hcur H; simpl in H.
  - destruct H as [<-|[]]. split; [apply Forall_rev; exact Hcur | exists [], []].
    rewrite !app_nil_r. reflexivity.
  - destruct (is_ws u) eqn:Hu.
    + destruct in_ws.
      * rewrite (Hin eq_refl) in *. simpl.
        destruct (IH [] true (fun _ => eq_refl) (Forall_nil _) H) as [Hp Hi].
        split; [exact Hp | apply infix_cons; exact Hi].
      * destruct H as [<-|H].
        -- split; [apply Forall_rev; exact Hcur | exists [], (u :: s)].
           reflexivity.
        -- destruct (IH [] true (fun _ => eq_refl) (Forall_nil _) H) as [Hp (a & b & Hi)].
           split; [exact Hp|]. exists (rev cur ++ u :: a), b. simpl in Hi.
           rewrite Hi, <- app_assoc. reflexivity.
    + destruct (IH (u :: cur) false (fun H => ltac:(discriminate H))
                   (Forall_cons _ Hu Hcur) H) as [Hp Hi].
      split; [exact Hp|]. simpl in Hi. rewrite <- app_assoc in Hi. exact Hi.
Qed.

Lemma take_cjk_spec (n : nat) (s : list Z) :
  (exists r, s = take_cjk n s ++ r) /\ Forall (fun u => is_cjk u = true) (take_cjk n s).
Proof.
  revert s. induction n as [|n IH]; intros s; simpl.
  - split; [exists s; reflexivity | constructor].
  - destruct s as [|u s]; [split; [exists []; reflexivity | constructor]|].
    destruct (is_cjk u) eqn:Hu; [|split; [exists (u :: s); reflexivity | constructor]].
    destruct (IH s) as [[r Hr] Hf]. split; [exists r; simpl; congruence | constructor; auto].
Qed.

(** Every match of [/[\u4e00-\u9fa5]{2,4}/g] is a run of 2 to 4 CJK code
    units of the text. *)
Lemma cjk_matches_pieces (s : list Z) (skip : nat) (m : list Z) :
  In m (cjk_matches skip s) ->
  infix m s /\ Forall (fun u => is_cjk u = true) m /\ (2 <= length m)%nat.
Proof.
  revert skip. induction s as [|u s IH]; intros skip H; [destruct skip; destruct H|].
  destruct skip as [|k]; cbn [cjk_matches] in H; cbv zeta in H.
  - destruct (Nat.leb_spec 2 (length (take_cjk 4 (u :: s)))) as [Hl|Hl].
    + destruct H as [<-|H].
      * destruct (take_cjk_spec 4 (u :: s)) as [[r Hr] Hf].
        split; [exists [], r; exact Hr | auto].
      * destruct (IH _ H) as (Hi & Hf & Hlen). split; [apply infix_cons; exact Hi | auto].
    + destruct (IH _ H) as (Hi & Hf & Hlen). split; [apply infix_cons; exact Hi | auto].
  - destruct (IH _ H) as (Hi & Hf & Hlen). split; [apply infix_cons; exact Hi | auto].
Qed.

Lemma text_eqb_refl (w : list Z) : text_eqb w w = true.
Proof. unfold text_eqb. destruct (list_eq_dec Z.eq_dec w w); [reflexivity | contradiction]. Qed.

Lemma dedup_spec (seen words : list (list Z)) :
  NoDup (dedup seen words) /\
  forall w, In w (dedup seen words) -> In w words /\ ~ In w seen.
Proof.
  revert seen. induction words as [|w words IH]; intros seen; simpl.
  - split; [constructor | tauto].
  - destruct (existsb (text_eqb w) seen) eqn:E.
    + destruct (IH seen) as [Hnd Hin]. split; [exact Hnd|].
      intros v Hv. destruct (Hin v Hv). tauto.
    + destruct (IH (w :: seen)) as [Hnd Hin].
      assert (Hw : ~ In w seen).
      { intros Hs. assert (existsb (text_eqb w) seen = true)
          by (apply existsb_exists; exists w; split; [exact Hs | apply text_eqb_refl]).
        congruence. }
      split.
      * constructor; [|exact Hnd]. intros Hd. destruct (Hin w Hd) as [_ Hn]. apply Hn. left. reflexivity.
      * intros v [<-|Hv]; [tauto|]. destruct (Hin v Hv) as [H1 H2]. simpl in H2. tauto.
Qed.

Lemma In_firstn_words {A} (n : nat) (l : list A) (x : A) : In x (firstn n l) -> In x l.
Proof.
  intros H. rewrite <- (firstn_skipn n l). apply in_or_app. left. exact H.
Qed.

Lemma NoDup_firstn' {A} (n : nat) (l : list A) : NoDup l -> NoDup (firstn n l).
Proof.
  intros H. rewrite <- (firstn_skipn n l) in H. eapply NoDup_app_remove_r. exact H.
Qed.

(** Every word before the filter: a piece of [split(/\s+/)] or a CJK match
    of the cleaned text. *)
Lemma extract_words (text w : list Z) :
  In w (filter (fun word => (0 <? length word)%nat) (split_ws [] false (cleanText text)) ++
        cjk_matches O (cleanText text)) ->
  no_ws w /\ infix w (cleanText text).
Proof.
  intros H. apply in_app_or in H as [H|H].
  - apply filter_In in H as [H _].
    apply (split_ws_pieces (cleanText text) [] false w (fun H => ltac:(discriminate H))
             (Forall_nil _) H).
  - destruct (cjk_matches_pieces _ _ _ H) as (Hi & Hc & _).
    split; [eapply Forall_impl; [|exact Hc]; apply cjk_not_ws | exact Hi].
Qed.

(** X10.  [extractKeywordsLocally] returns at most 10 keywords, without
    duplicates, each of at least 2 code units, none of them a stop word or
    made of digits only. *)
Theorem extractKeywordsLocally_filtered (text : list Z) :
  (length (extractKeywordsLocally text) <= 10)%nat /\
  NoDup (extractKeywordsLocally text) /\
  Forall (fun w => (2 <= length w)%nat /\ ~ In w stopWords /\ all_digits w = false)
         (extractKeywordsLocally text).
Proof.
  unfold extractKeywordsLocally.
  destruct (_ || _); [split; [simpl; lia | split; constructor]|].
  cbv zeta. set (words := _ ++ _).
  destruct (dedup_spec [] words) as [Hnd _].
  split; [apply firstn_le_length|]. split.
  - apply NoDup_firstn'. apply NoDup_filter. exact Hnd.
  - apply Forall_forall. intros w Hw. apply In_firstn_words, filter_In in Hw as [_ Hk].
    unfold keep_word in Hk. apply andb_prop in Hk as [Hk Hd].
    apply andb_prop in Hk as [Hs Hl].
    apply negb_true_iff in Hs, Hl, Hd. apply Nat.ltb_ge in Hl.
    split; [exact Hl|]. split; [|exact Hd].
    intros Hin. assert (existsb (text_eqb w) stopWords = true)
      by (apply existsb_exists; exists w; split; [exact Hin | apply text_eqb_refl]).
    congruence.
Qed.

(** X11.  Every keyword of [extractKeywordsLocally text] occurs in [text]
    as it is, and contains no white space and none of the punctuation the
    function removes. *)
Theorem extractKeywordsLocally_occur (text : list Z) :
  Forall (fun w => infix w text /\ Forall (fun u => is_ws u = false /\ is_punct u = false) w)
         (extractKeywordsLocally text).
Proof.
  unfold extractKeywordsLocally.
  destruct (_ || _); [constructor|].
  cbv zeta. apply Forall_forall. intros w Hw.
  apply In_firstn_words, filter_In in Hw as [Hw _].
  destruct (dedup_spec [] (filter (fun word => (0 <? length word)%nat)
    (split_ws [] false (cleanText text)) ++ cjk_matches O (cleanText text))) as [_ Hin].
  destruct (Hin w Hw) as [Hw' _].
  destruct (extract_words text w Hw') as [Hnw Hi].
  split; [apply cleanText_infix; assumption|].
  apply ChunkingFacts.Forall_conj; [exact Hnw|]. eapply infix_Forall; [exact Hi | apply cleanText_no_punct].
Qed.

End LocalKeywordsFacts.

(** ** Further facts about the lexical stage and the top-level search *)
Module LexicalFacts.
Import JsString Search.
Open Scope Q_scope.

(** *** Counting matched terms *)

Lemma score_term_fold (text : string) (terms : list string) (acc : nat * nat) :
  snd (fold_left (score_term text) terms acc) =
  (snd acc + length (filter (fun t => includes text (toLowerCase t)) terms))%nat.
Proof.
  revert acc. induction terms as [|t terms IH]; intros [k m]; simpl; [lia|].
  unfold score_term at 1. destruct (includes text (toLowerCase t)); rewrite IH; simpl; lia.
Qed.

Lemma rank_chunk_matched (terms : list string) (c : chunk) :
  matched_keywords (rank_chunk terms c) =
  Some (length (filter (fun t => includes (toLowerCase (content c)) (toLowerCase t)) terms)).
Proof.
  unfold rank_chunk.
  pose proof (score_term_fold (toLowerCase (content c)) terms (0, 0)%nat) as H.
  destruct (fold_left _ terms (0, 0)%nat) as [k m]. simpl in *. rewrite H. reflexivity.
Qed.

(** X12.  For a non-empty list of terms, [validateKeywordMatch] (of
    [keywordService.ts]) accepts a passage exactly when the ranking of
    [fallbackKeywordSearch] counts at least one matched term for it: both
    test [content.toLowerCase().includes(term.toLowerCase())]. *)
Theorem validateKeywordMatch_rank_chunk (terms : list string) (c : chunk) :
  terms <> [] ->
  exists m, matched_keywords (rank_chunk terms c) = Some m /\
            KeywordService.validateKeywordMatch (content c) terms = (0 <? m)%nat.
Proof.
  intros Hne. rewrite rank_chunk_matched. eexists; split; [reflexivity|].
  unfold KeywordService.validateKeywordMatch.
  destruct terms as [|t terms']; [contradiction | reflexivity].
Qed.

Lemma validateKeywordMatch_rank_chunk_witness :
  ["beta"%string] <> [] /\
  exists m, matched_keywords (rank_chunk ["beta"%string] Samples.lexical_row_1) = Some m /\
            KeywordService.validateKeywordMatch (content Samples.lexical_row_1) ["beta"%string]
            = (0 <? m)%nat.
Proof.
  split; [discriminate|]. apply validateKeywordMatch_rank_chunk. discriminate.
Defined.

(** X13.  The match ratio the lexical stage stores on a passage and the
    [keywordMatchRatio] the fusion recomputes from the passage's content
    are the same number, for the same list of terms (the list the
    top-level search passes to both stages). *)
Theorem rank_chunk_match_ratio (terms : list string) (c : chunk) :
  match_ratio (rank_chunk terms c) = Some (keywordMatchRatio terms (content c)).
Proof.
  unfold rank_chunk, keywordMatchRatio.
  pose proof (score_term_fold (toLowerCase (content c)) terms (0, 0)%nat) as H.
  destruct (fold_left _ terms (0, 0)%nat) as [k m]. simpl in *. rewrite H. reflexivity.
Qed.

(** *** Order of the lexical results *)

Definition keyword_le (a b : chunk) : Prop := keyword_cmp a b <= 0.

Lemma keyword_cmp_flip (x y : chunk) : qlt (keyword_cmp x y) 0 = false -> keyword_le y x.
Proof.
  intros H. apply SearchFacts.qlt_false in H. unfold keyword_le, keyword_cmp in *.
  rewrite (Qeq_bool_comm (or_zero (match_ratio y))).
  rewrite (Qeq_bool_comm (or_zero (keyword_score y))).
  destruct (Qeq_bool (or_zero (match_ratio x)) (or_zero (match_ratio y))); simpl in *; [|qlra].
  destruct (Qeq_bool (or_zero (keyword_score x)) (or_zero (keyword_score y))); simpl in *; [|qlra].
  change 0 with (inject_Z 0) in *. rewrite <- Zle_Qle in *. lia.
Qed.

Lemma insert_by_sorted (x : chunk) (l : list chunk) :
  Sorted keyword_le l -> Sorted keyword_le (insert_by keyword_cmp x l).
Proof.
  induction l as [|y l IH]; intros Hs; simpl; [repeat constructor|].
  destruct (qlt (keyword_cmp x y) 0) eqn:E.
  - constructor; [exact Hs|]. constructor. unfold keyword_le.
    apply Qlt_le_weak. apply SearchFacts.qlt_true. exact E.
  - apply Sorted_inv in Hs as [Hs Hhd]. constructor; [apply IH; exact Hs|].
    destruct l as [|z l]; simpl; [constructor; apply keyword_cmp_flip; exact E|].
    destruct (qlt (keyword_cmp x z) 0); constructor;
      [apply keyword_cmp_flip; exact E | inversion Hhd; assumption].
Qed.

Lemma sort_by_sorted (l : list chunk) : Sorted keyword_le (sort_by keyword_cmp l).
Proof.
  unfold sort_by. assert (H : Sorted keyword_le (@nil chunk)) by constructor. revert H.
  generalize (@nil chunk) as acc. induction l as [|x l IH]; intros acc Hacc; simpl; [exact Hacc|].
  apply IH. apply insert_by_sorted. exact Hacc.
Qed.

Lemma Sorted_firstn {A} (R : A -> A -> Prop) (n : nat) (l : list A) :
  Sorted R l -> Sorted R (firstn n l).
Proof.
  revert l. induction n as [|n IH]; intros l Hs; [constructor|].
  destruct l as [|x l]; [constructor|]. simpl.
  apply Sorted_inv in Hs as [Hs Hhd]. constructor; [apply IH; exact Hs|].
  destruct l as [|y l]; destruct n; simpl; constructor. inversion Hhd; assumption.
Qed.

Lemma Sorted_mono {A} (R R' : A -> A -> Prop) (l : list A) :
  (forall a b, R a b -> R' a b) -> Sorted R l -> Sorted R' l.
Proof.
  intros HR. induction 1 as [|x l Hs IH Hhd]; constructor; [exact IH|].
  destruct Hhd; constructor. apply HR. assumption.
Qed.

Lemma keyword_le_lex (a b : chunk) :
  keyword_le a b ->
  or_zero (match_ratio b) < or_zero (match_ratio a) \/
  (or_zero (match_ratio a) == or_zero (match_ratio b) /\
   (or_zero (keyword_score b) < or_zero (keyword_score a) \/
    (or_zero (keyword_score a) == or_zero (keyword_score b) /\
     (created_at b <= created_at a)%Z))).
Proof.
  unfold keyword_le, keyword_cmp.
  destruct (Qeq_bool (or_zero (match_ratio a)) (or_zero (match_ratio b))) eqn:E1; simpl.
  - apply Qeq_bool_iff in E1. intros H. right. split; [exact E1|].
    destruct (Qeq_bool (or_zero (keyword_score a)) (or_zero (keyword_score b))) eqn:E2; simpl in H.
    + apply Qeq_bool_iff in E2. right. split; [exact E2|].
      change 0 with (inject_Z 0) in H. rewrite <- Zle_Qle in H. lia.
    + left. apply Qle_lteq in H as [H|H]; [qlra|].
      exfalso. assert (Heq : or_zero (keyword_score a) == or_zero (keyword_score b)) by qlra.
      apply Qeq_bool_iff in Heq. congruence.
  - intros H. left. apply Qle_lteq in H as [H|H]; [qlra|].
    exfalso. assert (Heq : or_zero (match_ratio a) == or_zero (match_ratio b)) by qlra.
    apply Qeq_bool_iff in Heq. congruence.
Qed.

(** X14.  [fallbackKeywordSearch] never rejects: it ends with one query
    of the lexical store for [limit * 2] rows, and it returns at most
    [limit] passages (for [limit >= 0]), ordered by match ratio, then
    keyword score (both descending), then [created_at] (newest first). *)
Theorem fallbackKeywordSearch_ordered (E : env) (query userId : string) (limit : Z)
    (categoryId : option string) (keywords : option (list string)) :
  exists evs pats out,
    fallbackKeywordSearch E query userId limit categoryId keywords
      = (evs ++ [LexicalSelect pats (limit * 2)], inl out) /\
    ((0 <= limit)%Z -> (Z.of_nat (length out) <= limit)%Z) /\
    Sorted (fun a b =>
              or_zero (match_ratio b) < or_zero (match_ratio a) \/
              (or_zero (match_ratio a) == or_zero (match_ratio b) /\
               (or_zero (keyword_score b) < or_zero (keyword_score a) \/
                (or_zero (keyword_score a) == or_zero (keyword_score b) /\
                 (created_at b <= created_at a)%Z)))) out.
Proof.
  assert (Hres : forall terms (r : list chunk + exn),
    exists out,
      (match r with
       | inr _ => ret []
       | inl chunks => ret (slice0 (sort_by keyword_cmp (map (rank_chunk terms) chunks)) limit)
       end : M (list chunk)) = ([], inl out) /\
      ((0 <= limit)%Z -> (Z.of_nat (length out) <= limit)%Z) /\
      Sorted keyword_le out).
  { intros terms [rows|e].
    - eexists; split; [reflexivity|]. split; [apply SearchFacts.length_slice0|].
      unfold slice0. apply Sorted_firstn, sort_by_sorted.
    - exists []. split; [reflexivity|]. split; [simpl; lia | constructor]. }
  unfold fallbackKeywordSearch, bind, settle, call, ret.
  destruct keywords as [k|].
  - set (terms := if (0 <? length k)%nat then k else [query]).
    set (pats := map (fun term => ("%" ++ term ++ "%")%string) terms).
    destruct (Hres terms (select_chunks E userId categoryId pats (limit * 2)))
      as (out & Hout & Hlen & Hs).
    exists [], pats, out. cbv beta iota. unfold ret in Hout. rewrite Hout.
    split; [reflexivity|]. split; [exact Hlen|].
    eapply Sorted_mono; [apply keyword_le_lex | exact Hs].
  - set (terms := if (0 <? length (extractKeywords E query))%nat
                  then extractKeywords E query else [query]).
    set (pats := map (fun term => ("%" ++ term ++ "%")%string) terms).
    destruct (Hres terms (select_chunks E userId categoryId pats (limit * 2)))
      as (out & Hout & Hlen & Hs).
    exists [ExtractKeywords query], pats, out. cbv beta iota. unfold ret in Hout. rewrite Hout.
    split; [reflexivity|]. split; [exact Hlen|].
    eapply Sorted_mono; [apply keyword_le_lex | exact Hs].
Qed.

Lemma fallbackKeywordSearch_inl (E : env) (query userId : string) (limit : Z)
    (categoryId : option string) (keywords : option (list string)) :
  exists evs out, fallbackKeywordSearch E query userId limit categoryId keywords = (evs, inl out).
Proof.
  unfold fallbackKeywordSearch, bind, settle, call, ret.
  destruct keywords as [k|]; cbv beta iota;
    match goal with |- context [select_chunks E userId categoryId ?p ?n] =>
      destruct (select_chunks E userId categoryId p n) end; eauto.
Qed.

(** X15.  The only error that escapes [searchRelevantChunks] is a
    rejection of [generateQueryEmbedding]: once the query embedding is
    produced, a failure of either store, of the lexical stage or of the
    fusion is caught and the search answers with passages. *)
Theorem searchRelevantChunks_only_embedding_rejects (E : env) (query userId : string)
    (limit : Z) (categoryId : option string) (e : exn) :
  snd (searchRelevantChunks E query userId limit categoryId) = inr e ->
  generateQueryEmbedding E query = inr e.
Proof.
  intros H. destruct (generateQueryEmbedding E query) as [v|e'] eqn:Hg.
  - exfalso. unfold searchRelevantChunks in H. unfold bind at 1, call at 1 in H.
    cbv beta iota in H. unfold bind at 1 in H. rewrite Hg in H. cbv beta iota in H.
    destruct v as [|x xs].
    + destruct (fallbackKeywordSearch_inl E query userId limit categoryId
                  (Some (extractKeywords E query))) as (evs & out & Hf).
      unfold bind in H. rewrite Hf in H. simpl in H. discriminate.
    + destruct (extractKeywords E query) as [|k ks].
      * unfold catch, bind, performVectorSearchWithEmbedding, call, ret in H.
        destruct (search_similar_chunks E (x :: xs) userId (3 # 10) limit categoryId); simpl in H;
          discriminate.
      * unfold catch, bind, settle, performVectorSearchWithEmbedding, call, ret in H.
        destruct (search_similar_chunks E (x :: xs) userId (3 # 10) (limit * 2) categoryId);
        destruct (fallbackKeywordSearch E query userId (limit * 2) categoryId (Some (k :: ks)))
          as [t [r|r]]; simpl in H;
        repeat match type of H with
               | context [match ?l with [] => _ | _ :: _ => _ end] => destruct l; simpl in H
               end; discriminate.
  - unfold searchRelevantChunks, bind, call in H. rewrite Hg in H. simpl in H. congruence.
Qed.

Lemma searchRelevantChunks_only_embedding_rejects_witness :
  snd (searchRelevantChunks Samples.embedding_down "q" "u" 5 None) = inr EmbeddingServiceError /\
  generateQueryEmbedding Samples.embedding_down "q" = inr EmbeddingServiceError.
Proof.
  split; [vm_compute; reflexivity|].
  apply (searchRelevantChunks_only_embedding_rejects Samples.embedding_down "q" "u" 5 None).
  vm_compute. reflexivity.
Defined.

End LexicalFacts.

(** ** Further facts about the similarity service *)
Module SimilarityRangeFacts.
Import JsString Similarity.
Open Scope R_scope.

(** *** Range of the Jaccard overlap *)

Lemma intersection_le_union (a b : string) :
  (intersection_size a b <= union_size a b)%nat.
Proof.
  unfold intersection_size, union_size.
  eapply Nat.le_trans; [apply filter_length_le|].
  apply NoDup_incl_length; [apply SimilarityFacts.word_set_NoDup|].
  intros w Hw. apply nodup_In, in_or_app. left. exact Hw.
Qed.

(** X17.  [calculateJaccardSimilarity] always lies between 0 and 1. *)
Theorem calculateJaccardSimilarity_range (textA textB : string) :
  0 <= calculateJaccardSimilarity textA textB <= 1.
Proof.
  unfold calculateJaccardSimilarity.
  destruct (Nat.eqb_spec (union_size textA textB) 0) as [|Hu]; [rlra|].
  pose proof (intersection_le_union textA textB) as Hle.
  apply le_INR in Hle.
  assert (Hpos : 0 < INR (union_size textA textB)) by (apply lt_0_INR; lia).
  pose proof (pos_INR (intersection_size textA textB)).
  split.
  - unfold Rdiv. apply Rmult_le_pos; [assumption | left; apply Rinv_0_lt_compat; exact Hpos].
  - unfold Rdiv. apply (Rmult_le_reg_r (INR (union_size textA textB))); [exact Hpos|].
    rewrite Rmult_assoc, Rinv_l by rlra. rlra.
Qed.

Lemma union_size_self (t : string) : union_size t t = length (word_set t).
Proof.
  unfold union_size. apply Nat.le_antisymm.
  - apply NoDup_incl_length; [apply NoDup_nodup|].
    intros w Hw. apply nodup_In, in_app_or in Hw. tauto.
  - apply NoDup_incl_length; [apply SimilarityFacts.word_set_NoDup|].
    intros w Hw. apply nodup_In, in_or_app. left. exact Hw.
Qed.

Lemma intersection_size_self (t : string) : intersection_size t t = length (word_set t).
Proof.
  unfold intersection_size. f_equal. apply forallb_filter_id.
  apply forallb_forall. intros w Hw. apply SimilarityFacts.set_has_spec. exact Hw.
Qed.

(** X18.  A text with at least one word of two or more characters has
    Jaccard overlap 1 with itself (so it is above the 0.8 threshold of
    the deduplication pass), and a text with no such word has overlap 0
    with every text. *)
Theorem calculateJaccardSimilarity_self (t u : string) :
  (word_set t <> [] -> calculateJaccardSimilarity t t = 1) /\
  (word_set t = [] -> calculateJaccardSimilarity t u = 0).
Proof.
  split.
  - intros Hne. unfold calculateJaccardSimilarity.
    rewrite union_size_self, intersection_size_self.
    destruct (word_set t) as [|w ws]; [contradiction|]. simpl length.
    destruct (Nat.eqb_spec (S (length ws)) 0) as [H|_]; [discriminate|].
    apply Rinv_r. apply not_0_INR. discriminate.
  - intros He. unfold calculateJaccardSimilarity, intersection_size. rewrite He. simpl.
    destruct (Nat.eqb (union_size t u) 0); [reflexivity|]. unfold Rdiv. apply Rmult_0_l.
Qed.

Lemma calculateJaccardSimilarity_self_witness :
  word_set "a bc" <> [] /\ word_set "a" = [] /\
  calculateJaccardSimilarity "a bc" "a bc" = 1 /\ calculateJaccardSimilarity "a" "xy" = 0.
Proof.
  assert (H1 : word_set "a bc" <> []) by (vm_compute; discriminate).
  assert (H2 : word_set "a" = []) by (vm_compute; reflexivity).
  split; [exact H1|]. split; [exact H2|]. split.
  - apply (proj1 (calculateJaccardSimilarity_self "a bc" "a bc")). exact H1.
  - apply (proj2 (calculateJaccardSimilarity_self "a" "xy")). exact H2.
Defined.

(** *** What [diversityRerank] returns *)

Lemma take_at_perm (i : nat) (l rest : list chunk) (c : chunk) :
  take_at i l = Some (c, rest) -> nth_error l i = Some c /\ Permutation l (c :: rest).
Proof.
  unfold take_at. destruct (nth_error l i) as [x|] eqn:E; [|discriminate].
  intros H; injection H as <- <-. split; [reflexivity|].
  apply nth_error_split in E as (l1 & l2 & -> & <-).
  assert (H1 : firstn (length l1) (l1 ++ x :: l2) = l1).
  { rewrite firstn_app, firstn_all, Nat.sub_diag, firstn_O, app_nil_r. reflexivity. }
  assert (H2 : skipn (S (length l1)) (l1 ++ x :: l2) = l2).
  { rewrite skipn_app, skipn_all2 by lia.
    replace (S (length l1) - length l1)%nat with 1%nat by lia. reflexivity. }
  match goal with |- Permutation _ (x :: _ ++ ?m) =>
    change m with (skipn (S (length l1)) (l1 ++ x :: l2)) end.
  rewrite H1, H2. symmetry. apply Permutation_middle.
Qed.

Lemma dedup_pass_sub (kept l : list chunk) :
  exists kept' dropped, dedup_pass kept l = kept ++ kept' /\
                        Permutation (kept ++ l) (dedup_pass kept l ++ dropped).
Proof.
  revert kept. induction l as [|c l IH]; intros kept; simpl.
  - exists [], []. rewrite !app_nil_r. split; reflexivity.
  - destruct (existsb (is_near_duplicate c) kept).
    + destruct (IH kept) as (k' & d & Hk & Hp). exists k', (c :: d). split; [exact Hk|].
      transitivity (c :: kept ++ l); [symmetry; apply Permutation_middle|].
      transitivity (c :: dedup_pass kept l ++ d); [constructor; exact Hp | apply Permutation_middle].
    + destruct (IH (kept ++ [c])) as (k' & d & Hk & Hp). exists (c :: k'), d. split.
      * rewrite Hk, <- app_assoc. reflexivity.
      * rewrite <- app_assoc in Hp. exact Hp.
Qed.

Lemma mmr_loop_sub (fuel : nat) (lambda maxResults : R) (sel rem : list chunk) :
  exists sel' dropped, mmr_loop fuel lambda maxResults sel rem = sel ++ sel' /\
    Permutation (sel ++ rem) (mmr_loop fuel lambda maxResults sel rem ++ dropped).
Proof.
  revert sel rem. induction fuel as [|fuel IH]; intros sel rem; simpl;
    [exists [], rem; rewrite app_nil_r; split; reflexivity|].
  destruct (Rlt_dec _ _); [|exists [], rem; rewrite app_nil_r; split; reflexivity].
  destruct rem as [|x0 rem']; [exists [], []; rewrite !app_nil_r; split; reflexivity|].
  destruct (best_index _ _ _ _ _) as [i|];
    [|exists [], (x0 :: rem'); rewrite app_nil_r; split; reflexivity].
  destruct (take_at i (x0 :: rem')) as [[c rest]|] eqn:Ht;
    [|exists [], (x0 :: rem'); rewrite app_nil_r; split; reflexivity].
  apply take_at_perm in Ht as [_ Hp].
  destruct (IH (sel ++ [c]) rest) as (s' & d & Hs & Hq).
  exists (c :: s'), d. split.
  - rewrite Hs, <- app_assoc. reflexivity.
  - rewrite Hp. rewrite <- app_assoc in Hq. exact Hq.
Qed.

(** X19.  [diversityRerank] only selects and reorders: its output
    together with the passages it drops is a permutation of its input, so
    it never invents a passage nor repeats one more often than the input
    has it. *)
Theorem diversityRerank_sub_multiset (chunks : list chunk) (queryEmbedding : list R)
    (lambda maxResults : R) :
  exists dropped,
    Permutation chunks (diversityRerank chunks queryEmbedding lambda maxResults ++ dropped).
Proof.
  destruct chunks as [|c0 l]; [exists []; reflexivity|].
  unfold diversityRerank.
  destruct (Rle_dec _ _); [exists []; rewrite app_nil_r; reflexivity|].
  destruct (best_index _ _ _ _ _) as [i|]; [|exists (c0 :: l); reflexivity].
  destruct (take_at i (c0 :: l)) as [[c rest]|] eqn:Ht; [|exists (c0 :: l); reflexivity].
  apply take_at_perm in Ht as [_ Hp].
  destruct (mmr_loop_sub (length rest) lambda maxResults [c] rest) as (s' & d1 & _ & Hm).
  destruct (dedup_pass_sub [] (mmr_loop (length rest) lambda maxResults [c] rest))
    as (k' & d2 & _ & Hd).
  exists (d2 ++ d1). rewrite Hp, app_assoc. simpl app in Hd. rewrite <- Hd. exact Hm.
Qed.

(** The scan of [best_index]: either no score beats [bs] and [bi] is
    kept, or it returns the position of the first maximal score. *)
Lemma best_index_spec (score : chunk -> R) (l : list chunk) (i : nat) (bi : option nat) (bs : R) :
  (best_index score l i bi bs = bi /\ Forall (fun d => score d <= bs) l) \/
  (exists k c, best_index score l i bi bs = Some (i + k)%nat /\ nth_error l k = Some c /\
               bs < score c /\ Forall (fun d => score d <= score c) l).
Proof.
  revert i bi bs. induction l as [|c l IH]; intros i bi bs; simpl; [left; auto|].
  destruct (Rlt_dec bs (score c)) as [Hlt|Hge].
  - right. destruct (IH (S i) (Some i) (score c)) as [[-> Hall] | (k & c' & -> & Hn & Hl & Hall)].
    + exists 0%nat, c. rewrite Nat.add_0_r. split; [reflexivity|]. split; [reflexivity|].
      split; [exact Hlt|]. constructor; [apply Rle_refl | exact Hall].
    + exists (S k), c'. rewrite Nat.add_succ_r. split; [reflexivity|]. split; [exact Hn|].
      split; [rlra|]. constructor; [rlra | exact Hall].
  - destruct (IH (S i) bi bs) as [[-> Hall] | (k & c' & -> & Hn & Hl & Hall)].
    + left. split; [reflexivity|]. constructor; [rlra | exact Hall].
    + right. exists (S k), c'. rewrite Nat.add_succ_r. split; [reflexivity|].
      split; [exact Hn|]. split; [exact Hl|]. constructor; [rlra | exact Hall].
Qed.

(** X20.  When reranking happens (more passages than a non-negative
    [maxResults]) and every relevance is above -1, the first passage returned is an input
    passage of maximal relevance ([similarity || 0]); the later passages
    never displace it. *)
Theorem diversityRerank_head_most_relevant (chunks : list chunk) (queryEmbedding : list R)
    (lambda maxResults : R) :
  0 <= maxResults -> maxResults < INR (length chunks) ->
  Forall (fun d => -1 < relevance d) chunks ->
  exists c rest, diversityRerank chunks queryEmbedding lambda maxResults = c :: rest /\
    In c chunks /\ Forall (fun d => relevance d <= relevance c) chunks.
Proof.
  intros H0 Hlen Hrel. destruct chunks as [|c0 l]; [simpl in Hlen; rlra|].
  unfold diversityRerank.
  destruct (Rle_dec _ _) as [Hle|_]; [rlra|].
  destruct (best_index_spec relevance (c0 :: l) 0 (Some 0%nat) (-1))
    as [[_ Hall] | (k & c & Hb & Hn & _ & Hall)].
  - exfalso. inversion Hrel as [|x y H1 _]; subst. inversion Hall as [|x y H2 _]; subst. rlra.
  - rewrite Hb. simpl plus.
    unfold take_at at 1. rewrite Hn.
    set (rest := firstn k (c0 :: l) ++ skipn (S k) (c0 :: l)).
    destruct (mmr_loop_sub (length rest) lambda maxResults [c] rest) as (s' & _ & Hm & _).
    rewrite Hm. simpl app. simpl dedup_pass.
    destruct (dedup_pass_sub [c] s') as (k' & _ & Hd & _).
    rewrite Hd. exists c, k'. split; [reflexivity|]. split; [|exact Hall].
    eapply nth_error_In. exact Hn.
Qed.

(** On the four-passage pool the most relevant passage is the second
    one; it heads the output, ahead of the unrelated passage MMR picks
    next (the near-copy it picks third is dropped by deduplication). *)
Lemma diversityRerank_head_most_relevant_witness :
  0 <= 3 /\ 3 < INR (length Samples.rerank_pool) /\
  Forall (fun d => -1 < relevance d) Samples.rerank_pool /\
  (exists c rest, diversityRerank Samples.rerank_pool [] (7 / 10) 3 = c :: rest /\
    In c Samples.rerank_pool /\
    Forall (fun d => relevance d <= relevance c) Samples.rerank_pool) /\
  diversityRerank Samples.rerank_pool [] (7 / 10) 3
    = [Samples.rerank_passage; Samples.rerank_other].
Proof.
  assert (H0 : 0 <= 3) by rlra.
  assert (H1 : 3 < INR (length Samples.rerank_pool)) by (simpl; rlra).
  assert (H2 : Forall (fun d => -1 < relevance d) Samples.rerank_pool).
  { unfold Samples.rerank_pool.
    repeat constructor; unfold relevance; simpl; rlra. }
  split; [exact H0|]. split; [exact H1|]. split; [exact H2|].
  split; [exact (diversityRerank_head_most_relevant Samples.rerank_pool [] (7 / 10) 3 H0 H1 H2)|].
  exact SimilarityFacts.diversityRerank_pool_result.
Defined.

End SimilarityRangeFacts.
